(** * compliance_rag: the per-query pipeline, its history store and the
    ingestion cleaner, embedded from the Python sources.

    - [src/schema.py]   : the answer records ([ComplianceAnswer], [CitedSource]).
    - [src/history.py]  : the [messages] table and [load_history],
                          [save_message], [clear_session].
    - [src/rag.py]      : [format_context], [contextualize_question], [rag_query].
    - [src/ingest.py]   : [load_documents], [clean_documents],
                          [tag_law_category], [chunk_documents].

    Python strings are modelled as [string] (their UTF-8 bytes), LangChain
    messages as an inductive type, document metadata as a finite map from keys
    to Python values.  Code that talks to the outside (Postgres, the chat
    models, the retriever) runs in a state-and-exception monad over a [World]
    that holds the table, the faults the database is going to show, the list
    of calls made to the models and the retriever, and the log records. *)

From Stdlib Require Import Ascii String ZArith.
From stdpp Require Import gmap strings list pretty sorting.

(** ** Python values and exceptions *)

(** The line feed; Python writes it as a backslash-n escape. *)
Definition LF : ascii := Ascii.ascii_of_nat 10.
Definition CR : ascii := Ascii.ascii_of_nat 13.
Definition TAB : ascii := Ascii.ascii_of_nat 9.
Definition SPACE : ascii := Ascii.ascii_of_nat 32.
Definition nl : string := String LF "".

(** A metadata value: what a JSON payload can hold at the keys the code reads. *)
Inductive pyval : Type :=
| PNone
| PStr (s : string)
| PInt (z : Z)
| PBool (b : bool).

(** [str(v)], which is what an f-string applies to [{v}]. *)
Definition py_str (v : pyval) : string :=
  match v with
  | PNone => "None"
  | PStr s => s
  | PInt z => pretty z
  | PBool true => "True"
  | PBool false => "False"
  end.

(** [sep.join(parts)] *)
Fixpoint str_join (sep : string) (parts : list string) : string :=
  match parts with
  | [] => ""
  | p :: ps =>
      match ps with
      | [] => p
      | _ :: _ => p +:+ sep +:+ str_join sep ps
      end
  end.

(** An exception object; [exn_msg] is what [str(e)] shows in a log line. *)
Inductive exn : Type := Exception (msg : string).

Definition exn_msg (e : exn) : string := let 'Exception m := e in m.

Inductive result (A : Type) : Type :=
| Ok (a : A)
| Raise (e : exn).
Arguments Ok {A} a.
Arguments Raise {A} e.

Definition is_raise {A} (r : result A) : Prop :=
  match r with Ok _ => False | Raise _ => True end.

(** ** langchain_core: documents and messages *)

Record Document : Type := mkDocument {
  page_content : string;
  metadata : gmap string pyval;
}.

Inductive Message : Type :=
| SystemMessage (content : string)
| HumanMessage (content : string)
| AIMessage (content : string).

(** ** src/schema.py *)

Module Schema.

Record CitedSource : Type := mkCitedSource {
  document_name : string;
  page_number : option Z;
  section : option string;
  law_category : option string;
  contains_table : option bool;
}.

Record ComplianceAnswer : Type := mkComplianceAnswer {
  answer : string;
  found_in_docs : bool;
  sources : list CitedSource;
  confidence : string;
}.

End Schema.
Import Schema.

(** ** The world outside the process *)

(** One row of the [messages] table of [init_db]; the [timestamp] column is
    written by the server and never read back, so it is left out. *)
Record Row : Type := mkRow {
  row_id : nat;
  row_session : string;
  row_role : string;
  row_content : string;
}.

(** The table and the [SERIAL] sequence behind its [id] column:
    [messages_id_seq] is the last value the sequence handed out. *)
Record Db : Type := mkDb {
  messages : list Row;
  messages_id_seq : nat;
}.

(** Where a database operation is going to fail, if it does: the server
    cannot be reached, the statement is refused or the connection drops while
    it runs, the commit fails, or closing fails. *)
Inductive db_fault : Type :=
| NoFault
| FailConnect
| FailExecute
| FailCommit
| FailClose.

Inductive Call : Type :=
| CallLlm (msgs : list Message)
| CallRetriever (query : string)
| CallStructuredLlm (msgs : list Message).

Inductive level : Type := DEBUG | INFO | ERROR.

#[global] Instance level_eq_dec : EqDecision level.
Proof. solve_decision. Defined.

Record World : Type := mkWorld {
  db : Db;
  (** the fault of each coming connection, in order; none left: no fault *)
  db_faults : list db_fault;
  (** the calls made so far to the models and the retriever, oldest first *)
  calls : list Call;
  (** the records handed to the logger, oldest first *)
  log : list (level * string);
}.

(** ** The monad: state passing over [World], with exceptions *)

Definition M (A : Type) : Type := World -> result A * World.

Definition ret {A} (a : A) : M A := fun w => (Ok a, w).

Definition raise {A} (e : exn) : M A := fun w => (Raise e, w).

Definition bind {A B} (c : M A) (k : A -> M B) : M B :=
  fun w =>
    match c w with
    | (Ok a, w') => k a w'
    | (Raise e, w') => (Raise e, w')
    end.

(** [try: body except Exception as e: handler e]; what [body] did to the
    world before it raised stays done. *)
Definition try_except {A} (body : M A) (handler : exn -> M A) : M A :=
  fun w =>
    match body w with
    | (Ok a, w') => (Ok a, w')
    | (Raise e, w') => handler e w'
    end.

Notation "'let*' x ':=' c1 'in' c2" := (bind c1 (fun x => c2))
  (at level 10, x name, c1 at level 100, c2 at level 200).
Notation "'do' c1 'then' c2" := (bind c1 (fun _ => c2))
  (at level 10, c1 at level 100, c2 at level 200).

(** ** src/logger.py: the module loggers *)

Definition logger_emit (lv : level) (msg : string) : M unit :=
  fun w => (Ok tt, mkWorld (db w) (db_faults w) (calls w) (log w ++ [(lv, msg)])).

Definition logger_debug := logger_emit DEBUG.
Definition logger_info := logger_emit INFO.
Definition logger_error := logger_emit ERROR.

(** ** src/history.py *)

Module History.

(** A psycopg2 connection: the fault it is going to show and the rows its
    open transaction has staged. *)
Record Conn : Type := mkConn {
  conn_fault : db_fault;
  pending : list Row;
}.

Definition next_fault : M db_fault :=
  fun w =>
    match db_faults w with
    | [] => (Ok NoFault, w)
    | f :: fs => (Ok f, mkWorld (db w) fs (calls w) (log w))
    end.

(** [psycopg2.connect(DATABASE_URL)] *)
Definition get_conn : M Conn :=
  let* f := next_fault in
  match f with
  | FailConnect => raise (Exception "could not connect to server")
  | _ => ret (mkConn f [])
  end.

(** [ORDER BY id], as an insertion sort on the [id] column. *)
Fixpoint insert_by_id (r : Row) (rows : list Row) : list Row :=
  match rows with
  | [] => [r]
  | r' :: rest =>
      if (row_id r <=? row_id r')%nat then r :: r' :: rest
      else r' :: insert_by_id r rest
  end.

Fixpoint order_by_id (rows : list Row) : list Row :=
  match rows with
  | [] => []
  | r :: rest => insert_by_id r (order_by_id rest)
  end.

(** [SELECT role, content FROM messages WHERE session = %s ORDER BY id] *)
Definition select_messages (session_id : string) (table : list Row)
  : list (string * string) :=
  (fun r => (row_role r, row_content r)) <$>
    order_by_id (filter (fun r => row_session r = session_id) table).

(** [cur.execute(SELECT ...)] followed by [cur.fetchall()] *)
Definition execute_select (conn : Conn) (session_id : string)
  : M (list (string * string)) :=
  match conn_fault conn with
  | FailExecute => raise (Exception "server closed the connection unexpectedly")
  | _ => fun w => (Ok (select_messages session_id (messages (db w))), w)
  end.

(** [cur.execute(INSERT INTO messages (session, role, content) ...)]: the
    sequence hands out the next [id] at once, the row waits for the commit. *)
Definition execute_insert (conn : Conn) (session_id role content : string)
  : M Conn :=
  match conn_fault conn with
  | FailExecute => raise (Exception "server closed the connection unexpectedly")
  | _ =>
      fun w =>
        let new_id := S (messages_id_seq (db w)) in
        (Ok (mkConn (conn_fault conn)
               (pending conn ++ [mkRow new_id session_id role content])),
         mkWorld (mkDb (messages (db w)) new_id) (db_faults w) (calls w) (log w))
  end.

(** [conn.commit()] *)
Definition commit (conn : Conn) : M unit :=
  match conn_fault conn with
  | FailCommit => raise (Exception "connection already closed")
  | _ =>
      fun w =>
        (Ok tt,
         mkWorld (mkDb (messages (db w) ++ pending conn) (messages_id_seq (db w)))
           (db_faults w) (calls w) (log w))
  end.

(** [cur.close()] and [conn.close()] *)
Definition close (conn : Conn) : M unit :=
  match conn_fault conn with
  | FailClose => raise (Exception "connection already closed")
  | _ => ret tt
  end.

(** The [for role, content in rows] loop of [load_history]. *)
Definition history_of_rows (rows : list (string * string)) : list Message :=
  fold_left
    (fun history row =>
       let '(role, content) := row in
       if decide (role = "human")
       then history ++ [HumanMessage content]
       else history ++ [AIMessage content])
    rows [].

Definition load_history (session_id : string) : M (list Message) :=
  try_except
    (let* conn := get_conn in
     let* rows := execute_select conn session_id in
     do close conn then
     let history := history_of_rows rows in
     do logger_info ("Loaded " +:+ pretty (length history)
                       +:+ " messages for session '" +:+ session_id +:+ "'") then
     ret history)
    (fun e =>
       do logger_error ("Error loading history for session '" +:+ session_id
                          +:+ "': " +:+ exn_msg e) then
       ret []).

Definition save_message (session_id role content : string) : M unit :=
  try_except
    (let* conn := get_conn in
     let* conn := execute_insert conn session_id role content in
     do commit conn then
     do close conn then
     logger_debug ("Saved [" +:+ role +:+ "] message for session '"
                     +:+ session_id +:+ "'"))
    (fun e =>
       logger_error ("Error saving message for session '" +:+ session_id
                       +:+ "': " +:+ exn_msg e)).

(** [cur.execute(DELETE FROM messages WHERE session = %s)]: nothing is seen
    of the deletion before the commit. *)
Definition execute_delete (conn : Conn) (session_id : string) : M unit :=
  match conn_fault conn with
  | FailExecute => raise (Exception "server closed the connection unexpectedly")
  | _ => ret tt
  end.

(** [conn.commit()] of the transaction that holds that [DELETE]. *)
Definition commit_delete (conn : Conn) (session_id : string) : M unit :=
  match conn_fault conn with
  | FailCommit => raise (Exception "connection already closed")
  | _ =>
      fun w =>
        (Ok tt,
         mkWorld
           (mkDb (filter (fun r => row_session r <> session_id) (messages (db w)))
              (messages_id_seq (db w)))
           (db_faults w) (calls w) (log w))
  end.

Definition clear_session (session_id : string) : M unit :=
  try_except
    (let* conn := get_conn in
     do execute_delete conn session_id then
     do commit_delete conn session_id then
     do close conn then
     logger_info ("Cleared history for session '" +:+ session_id +:+ "'"))
    (fun e =>
       logger_error ("Error clearing session '" +:+ session_id
                       +:+ "': " +:+ exn_msg e)).

End History.
Import History.

(** ** src/rag.py *)

Module Rag.

Definition CONTEXTUALIZE_PROMPT : string :=
  "Given the chat history and the latest user question, rewrite the question as a fully standalone question that can be understood without the chat history. Do NOT answer it, only rewrite it. If it is already standalone, return it as is.".

Definition SYSTEM_PROMPT : string :=
  "You are a precise compliance assistant for Nigerian regulatory and legal documents. Answer using ONLY the provided context from the compliance documents. Always cite the source document name, page number, and section if available. Sections prefixed with CONTAINED_TABLE_DATA contain structured table information — pay close attention to these when answering questions about figures, thresholds, or rates. Set found_in_docs to False and explain that the answer was not found if the context does not support an answer. Set confidence based on how clearly the context supports the answer: high, medium, or low. Never make up or infer information beyond what is in the context.".

(** [d.metadata.get(key, default)], formatted as the f-string formats it. *)
Definition metadata_get (d : Document) (key : string) (default_ : string) : string :=
  match metadata d !! key with
  | Some v => py_str v
  | None => default_
  end.

(** The f-string that [format_context] appends for the chunk numbered [i]. *)
Definition context_entry (i : nat) (d : Document) : string :=
  let source := metadata_get d "source" "Unknown" in
  let page := metadata_get d "page" "?" in
  let category := metadata_get d "law_category" "General Compliance" in
  "[" +:+ pretty i +:+ "] Source: " +:+ source +:+ " | Page: " +:+ page
    +:+ " | Category: " +:+ category +:+ nl +:+ page_content d.

(** The loop [for i, d in enumerate(docs, 1): parts.append(...)], started at
    counter [i] with [parts] collected so far. *)
Fixpoint format_context_loop (i : nat) (docs : list Document) (parts : list string)
  : list string :=
  match docs with
  | [] => parts
  | d :: rest => format_context_loop (S i) rest (parts ++ [context_entry i d])
  end.

(** The delimiter that [format_context] joins the entries with. *)
Definition CONTEXT_DELIMITER : string := nl +:+ nl +:+ "---" +:+ nl +:+ nl.

Definition format_context (docs : list Document) : string :=
  let parts := format_context_loop 1 docs [] in
  str_join CONTEXT_DELIMITER parts.

(** The messages [contextualize_question] sends to the plain model. *)
Definition contextualize_messages (question : string) (history : list Message)
  : list Message :=
  [SystemMessage CONTEXTUALIZE_PROMPT] ++ history ++ [HumanMessage question].

(** [llm.invoke(messages).content]: the call is recorded, then the model
    answers or raises. *)
Definition llm_invoke (llm : list Message -> result string) (msgs : list Message)
  : M string :=
  fun w =>
    (llm msgs, mkWorld (db w) (db_faults w) (calls w ++ [CallLlm msgs]) (log w)).

Definition contextualize_question (question : string) (history : list Message)
    (llm : list Message -> result string) : M string :=
  match history with
  | [] => ret question
  | _ :: _ =>
      let messages := contextualize_messages question history in
      let* standalone := llm_invoke llm messages in
      do logger_debug ("Contextualized question: " +:+ standalone) then
      ret standalone
  end.

(** [retriever.invoke(query)] *)
Definition retriever_invoke (retriever : string -> result (list Document))
    (query : string) : M (list Document) :=
  fun w =>
    (retriever query,
     mkWorld (db w) (db_faults w) (calls w ++ [CallRetriever query]) (log w)).

(** [structured_llm.invoke(messages)] *)
Definition structured_llm_invoke
    (structured_llm : list Message -> result ComplianceAnswer)
    (msgs : list Message) : M ComplianceAnswer :=
  fun w =>
    (structured_llm msgs,
     mkWorld (db w) (db_faults w) (calls w ++ [CallStructuredLlm msgs]) (log w)).

(** The user turn of the answer prompt. *)
Definition user_turn (context question : string) : string :=
  "Context:" +:+ nl +:+ context +:+ nl +:+ nl +:+ "Question: " +:+ question.

(** The messages [rag_query] sends to the structured model. *)
Definition answer_messages (question : string) (history : list Message)
    (context : string) : list Message :=
  [SystemMessage SYSTEM_PROMPT] ++ history
    ++ [HumanMessage (user_turn context question)].

(** [None] is the failure signal, [Some result] the answer. *)
Definition rag_query (question session_id : string)
    (retriever : string -> result (list Document))
    (llm : list Message -> result string)
    (structured_llm : list Message -> result ComplianceAnswer)
  : M (option ComplianceAnswer) :=
  try_except
    ((* 1. Load history *)
     let* history := load_history session_id in
     (* 2. Contextualize *)
     let* standalone_question := contextualize_question question history llm in
     (* 3. Retrieve + rerank *)
     do logger_info ("Retrieving chunks for: " +:+ standalone_question) then
     let* retrieved_docs := retriever_invoke retriever standalone_question in
     do logger_info ("Retrieved " +:+ pretty (length retrieved_docs)
                       +:+ " chunks after reranking") then
     (* 4. Build prompt *)
     let context := format_context retrieved_docs in
     let messages := answer_messages question history context in
     (* 5. Get structured answer *)
     do logger_info "Invoking structured LLM..." then
     let* result := structured_llm_invoke structured_llm messages in
     (* 6. Save to history *)
     do save_message session_id "human" question then
     do save_message session_id "ai" (answer result) then
     do logger_info ("Answer generated. Found in docs: "
                       +:+ py_str (PBool (found_in_docs result))
                       +:+ " | Confidence: " +:+ confidence result) then
     ret (Some result))
    (fun e =>
       do logger_error ("Error in rag_query: " +:+ exn_msg e) then
       ret None).

End Rag.
Import Rag.

(** ** src/ingest.py *)

Module Ingest.

(** [re.sub(r"\r\n?", "\n", s)]: a carriage return, with the line feed after
    it if there is one, becomes one line feed. *)
Fixpoint normalize_newlines (s : string) : string :=
  match s with
  | EmptyString => EmptyString
  | String c rest =>
      if Ascii.eqb c CR then
        match rest with
        | String c' rest' =>
            if Ascii.eqb c' LF then String LF (normalize_newlines rest')
            else String LF (normalize_newlines rest)
        | EmptyString => String LF EmptyString
        end
      else String c (normalize_newlines rest)
  end.

(** [re.sub(r"\n{3,}", "\n\n", s)]: of a run of line feeds the first two are
    kept; [run] counts the line feeds just before [s]. *)
Fixpoint collapse_newlines_from (run : nat) (s : string) : string :=
  match s with
  | EmptyString => EmptyString
  | String c rest =>
      if Ascii.eqb c LF then
        if (run <? 2)%nat then String c (collapse_newlines_from (S run) rest)
        else collapse_newlines_from (S run) rest
      else String c (collapse_newlines_from 0 rest)
  end.

Definition collapse_newlines : string -> string := collapse_newlines_from 0.

Definition is_blank (c : ascii) : bool := Ascii.eqb c SPACE || Ascii.eqb c TAB.

(** [re.sub(r"[ \t]+", " ", s)]: a run of spaces and tabs becomes one space;
    [in_run] says that the character before [s] was one of them. *)
Fixpoint collapse_blanks_from (in_run : bool) (s : string) : string :=
  match s with
  | EmptyString => EmptyString
  | String c rest =>
      if is_blank c then
        if in_run then collapse_blanks_from true rest
        else String SPACE (collapse_blanks_from true rest)
      else String c (collapse_blanks_from false rest)
  end.

Definition collapse_blanks : string -> string := collapse_blanks_from false.

(** The ASCII characters [str.strip()] removes: tab to carriage return, the
    four separators 28 to 31, and the space. *)
Definition is_space (c : ascii) : bool :=
  let n := Ascii.nat_of_ascii c in
  ((9 <=? n) && (n <=? 13) || (28 <=? n) && (n <=? 32))%nat.

(** The characters outside ASCII that [str.strip()] removes, by the bytes of
    their UTF-8 encoding.  In two bytes: U+0085 (194 133) and U+00A0
    (194 160). *)
Definition is_space2 (b1 b2 : ascii) : bool :=
  let n1 := Ascii.nat_of_ascii b1 in
  let n2 := Ascii.nat_of_ascii b2 in
  ((n1 =? 194) && ((n2 =? 133) || (n2 =? 160)))%nat.

(** In three bytes: U+1680 (225 154 128), U+2000 to U+200A (226 128 128 to
    226 128 138), U+2028, U+2029 and U+202F (226 128 168, 169 and 175),
    U+205F (226 129 159) and U+3000 (227 128 128). *)
Definition is_space3 (b1 b2 b3 : ascii) : bool :=
  let n1 := Ascii.nat_of_ascii b1 in
  let n2 := Ascii.nat_of_ascii b2 in
  let n3 := Ascii.nat_of_ascii b3 in
  ((n1 =? 225) && (n2 =? 154) && (n3 =? 128)
   || (n1 =? 226) && (n2 =? 128)
      && ((128 <=? n3) && (n3 <=? 138)
          || (n3 =? 168) || (n3 =? 169) || (n3 =? 175))
   || (n1 =? 226) && (n2 =? 129) && (n3 =? 159)
   || (n1 =? 227) && (n2 =? 128) && (n3 =? 128))%nat.

(** Dropping from the front of [s] the whitespace characters of one, two and
    three bytes, [two] and [three] telling the longer ones. *)
Fixpoint lstrip_with (two : ascii -> ascii -> bool)
    (three : ascii -> ascii -> ascii -> bool) (s : string) : string :=
  match s with
  | EmptyString => EmptyString
  | String b1 r1 =>
      if is_space b1 then lstrip_with two three r1
      else
        match r1 with
        | String b2 r2 =>
            if two b1 b2 then lstrip_with two three r2
            else
              match r2 with
              | String b3 r3 =>
                  if three b1 b2 b3 then lstrip_with two three r3 else s
              | EmptyString => s
              end
        | EmptyString => s
        end
  end.

(** [s.lstrip()] *)
Definition lstrip : string -> string := lstrip_with is_space2 is_space3.

(** [s.rstrip()] on the reversed string, where the bytes of a character come
    last byte first. *)
Definition rstrip_reversed : string -> string :=
  lstrip_with (fun b2 b1 => is_space2 b1 b2)
    (fun b3 b2 b1 => is_space3 b1 b2 b3).

(** [s.strip()] *)
Definition strip (s : string) : string :=
  String.rev (rstrip_reversed (String.rev (lstrip s))).

(** The expression bound to [cleaned_content]. *)
Definition clean_text (content : string) : string :=
  strip (collapse_blanks (collapse_newlines (normalize_newlines content))).

(** The [for doc in docs] loop of [clean_documents].  The list the loop walks
    and the list the body appends to are the same object, so the iterator is
    an index [i] into the one list [docs], which it reads afresh at each step;
    [None] when [fuel] steps did not finish the loop. *)
Fixpoint clean_loop (fuel : nat) (i : nat) (docs : list Document)
  : option (list Document) :=
  match fuel with
  | O => None
  | S fuel' =>
      match docs !! i with
      | None => Some docs
      | Some doc =>
          let cleaned_content := clean_text (page_content doc) in
          if decide (cleaned_content = "")
          then clean_loop fuel' (S i) docs
          else clean_loop fuel' (S i)
                 (docs ++ [mkDocument cleaned_content (metadata doc)])
      end
  end.

(** The first statement, [docs = []], rebinds the parameter to a new empty
    list; the loop and the [return] then use that list. *)
Definition clean_documents (fuel : nat) (docs : list Document)
  : option (list Document) :=
  let docs : list Document := [] in
  clean_loop fuel 0 docs.

(** [LAW_CATEGORY_MAP], in the order the dictionary literal lists it, which
    is the order [items()] walks it in. *)
Definition LAW_CATEGORY_MAP : list (string * list string) :=
  [ ("Taxation", ["tax"; "nta"; "revenue"; "firs"; "nrs"]);
    ("Data Protection", ["data"; "ndpa"; "privacy"; "ndpc"]);
    ("Corporate/CAC", ["cama"; "cac"; "corporate"; "annual return"]);
    ("Employment", ["labour"; "pension"; "wage"; "employee"]) ].

(** [str.lower()] on the ASCII letters.  The keywords are ASCII, and the
    only characters outside ASCII that [lower()] maps onto an ASCII letter are
    the Kelvin sign (onto k, which no keyword has) and the dotted capital I
    (onto i and a combining dot, which no keyword has after an i), so the
    keyword tests come out as with [lower()]. *)
Definition lower_ascii (c : ascii) : ascii :=
  let n := Ascii.nat_of_ascii c in
  if ((65 <=? n) && (n <=? 90))%nat then Ascii.ascii_of_nat (n + 32) else c.

Fixpoint lower (s : string) : string :=
  match s with
  | EmptyString => EmptyString
  | String c rest => String (lower_ascii c) (lower rest)
  end.

(** [s.startswith(word)] *)
Fixpoint startswith (word s : string) : bool :=
  match word with
  | EmptyString => true
  | String c word' =>
      match s with
      | EmptyString => false
      | String c' s' => Ascii.eqb c c' && startswith word' s'
      end
  end.

(** [word in s] *)
Fixpoint str_contains (word s : string) : bool :=
  startswith word s
  || match s with
     | EmptyString => false
     | String _ s' => str_contains word s'
     end.

(** The loop of [tag_law_category] over the items that are left. *)
Fixpoint tag_law_category_loop (items : list (string * list string))
    (source_lower : string) : string :=
  match items with
  | [] => "General Compliance"
  | (category, keywords) :: rest =>
      if existsb (fun word => str_contains word source_lower) keywords
      then category
      else tag_law_category_loop rest source_lower
  end.

Definition tag_law_category (source_name : string) : string :=
  let source_lower := lower source_name in
  tag_law_category_loop LAW_CATEGORY_MAP source_lower.

(** The pages of an opened PDF: for each page what [page.get_text()] gives. *)
Definition Pdf : Type := list (result string).

(** The [for page_num, page in enumerate(pdf, start=1)] loop of
    [load_documents], at page [page_num] with [docs] collected so far;
    [name] is [path.name], [path] is [str(path)], [total] is
    [pdf.page_count]. *)
Fixpoint load_pages (name path : string) (total : nat) (page_num : nat)
    (pages : Pdf) (docs : list Document) : result (list Document) :=
  match pages with
  | [] => Ok docs
  | page :: rest =>
      match page with
      | Raise e => Raise e
      | Ok raw =>
          let text := strip raw in
          if decide (text = "")
          then load_pages name path total (S page_num) rest docs
          else
            load_pages name path total (S page_num) rest
              (docs ++
                 [mkDocument text
                    (<["source" := PStr name]>
                       (<["file_type" := PStr path]>
                          (<["total_pages" := PInt (Z.of_nat total)]>
                             (<["page" := PInt (Z.of_nat page_num)]> ∅))))])
      end
  end.

(** Lifting a computation that touches nothing of the world. *)
Definition lift {A} (r : result A) : M A := fun w => (r, w).

(** [fitz_open] is what [fitz.open(str(path))] gives: the pages or an error. *)
Definition load_documents (name path : string) (fitz_open : result Pdf)
  : M (list Document) :=
  do logger_info ("Loading documents from " +:+ path) then
  try_except
    (let* pdf := lift fitz_open in
     let* docs := lift (load_pages name path (length pdf) 1 pdf []) in
     do logger_info ("Loaded " +:+ pretty (length docs) +:+ " pages from "
                       +:+ path) then
     ret docs)
    (fun e =>
       do logger_error ("Error loading document " +:+ path +:+ ": "
                          +:+ exn_msg e) then
       ret []).

(** The body of the tagging loop of [chunk_documents] for one chunk.
    [tag_law_category] calls [lower()] on the source, which only a string
    has. *)
Definition tag_chunk (chunk : Document) : result Document :=
  let source_name :=
    match metadata chunk !! "source" with
    | Some v => v
    | None => PStr ""
    end in
  match source_name with
  | PStr source =>
      let tagged := <["law_category" := PStr (tag_law_category source)]>
                      (metadata chunk) in
      let flag := str_contains "|" (page_content chunk)
                  && str_contains "---" (page_content chunk) in
      Ok (mkDocument (page_content chunk)
            (<["contains_table" := PBool flag]> tagged))
  | _ => Raise (Exception "AttributeError: object has no attribute 'lower'")
  end.

(** The loop [for chunk in chunks], each chunk having a metadata dictionary
    of its own. *)
Fixpoint tag_chunks (chunks : list Document) : result (list Document) :=
  match chunks with
  | [] => Ok []
  | chunk :: rest =>
      match tag_chunk chunk with
      | Raise e => Raise e
      | Ok chunk' =>
          match tag_chunks rest with
          | Raise e => Raise e
          | Ok rest' => Ok (chunk' :: rest')
          end
      end
  end.

(** [splitter] is [splitter.split_documents] of the text splitter the
    function builds. *)
Definition chunk_documents (splitter : list Document -> result (list Document))
    (docs : list Document) : M (list Document) :=
  try_except
    (do logger_info ("Chunking " +:+ pretty (length docs) +:+ " pages...") then
     let* chunks := lift (splitter docs) in
     do logger_info ("Created " +:+ pretty (length chunks)
                       +:+ " chunks before tagging") then
     let* chunks := lift (tag_chunks chunks) in
     do logger_info ("Tagged " +:+ pretty (length chunks)
                       +:+ " chunks with law category and table flags") then
     ret chunks)
    (fun e =>
       do logger_error ("Error chunking documents: " +:+ exn_msg e) then
       ret []).

End Ingest.
Import Ingest.

(** ** Well-formed tables and sample data *)

(** The sequence is ahead of every [id] in the table, as it is for a
    [SERIAL] column that only [save_message] writes. *)
Definition db_wf (d : Db) : Prop :=
  Forall (fun r => row_id r <= messages_id_seq d) (messages d).

(** No two rows of the table share an [id], as the primary key demands. *)
Definition ids_unique (d : Db) : Prop := NoDup (row_id <$> messages d).

(** The fault the [n]-th coming connection is going to show. *)
Definition fault_at (n : nat) (w : World) : db_fault :=
  default NoFault (db_faults w !! n).

(** The message [load_history] builds from a row. *)
Definition message_of_row (r : Row) : Message :=
  if decide (row_role r = "human") then HumanMessage (row_content r)
  else AIMessage (row_content r).

(** What one [save_message] leaves of a database, by the fault its connection
    shows: the row is stored unless the connection, the statement or the
    commit fails, and the sequence has moved once the statement ran. *)
Definition db_after_save (f : db_fault) (d : Db) (session_id role content : string)
  : Db :=
  match f with
  | FailConnect | FailExecute => d
  | FailCommit => mkDb (messages d) (S (messages_id_seq d))
  | NoFault | FailClose =>
      mkDb (messages d ++ [mkRow (S (messages_id_seq d)) session_id role content])
        (S (messages_id_seq d))
  end.

(** The document [load_documents] makes of the page numbered [page_num]. *)
Definition page_document (name path : string) (total page_num : nat)
    (raw : string) : Document :=
  mkDocument (strip raw)
    (<["source" := PStr name]>
       (<["file_type" := PStr path]>
          (<["total_pages" := PInt (Z.of_nat total)]>
             (<["page" := PInt (Z.of_nat page_num)]> ∅)))).

(** Every character of the string passes the test. *)
Fixpoint str_all (P : ascii -> bool) (s : string) : bool :=
  match s with
  | EmptyString => true
  | String c rest => P c && str_all P rest
  end.

(** The string starts with a whitespace character of one, two or three
    bytes, [two] and [three] telling the longer ones. *)
Definition space_head (two : ascii -> ascii -> bool)
    (three : ascii -> ascii -> ascii -> bool) (s : string) : bool :=
  match s with
  | EmptyString => false
  | String b1 r1 =>
      is_space b1
      || match r1 with
         | String b2 r2 =>
             two b1 b2
             || match r2 with
                | String b3 _ => three b1 b2 b3
                | EmptyString => false
                end
         | EmptyString => false
         end
  end.


Definition not_cr (c : ascii) : bool := negb (Ascii.eqb c CR).
Definition not_tab (c : ascii) : bool := negb (Ascii.eqb c TAB).

Module Samples.

(** A table with one two-turn conversation for session s1 and a turn of
    another session. *)
Definition vat_rows : list Row :=
  [ mkRow 1 "s1" "human" "What is the VAT rate?";
    mkRow 2 "s1" "ai" "7.5% per the Finance Act";
    mkRow 3 "s2" "human" "Who must file annual returns?" ].

Definition vat_history : list Message :=
  [ HumanMessage "What is the VAT rate?";
    AIMessage "7.5% per the Finance Act" ].

(** The world with that table, nothing called or logged yet, and the given
    database faults to come. *)
Definition world_with (faults : list db_fault) : World :=
  mkWorld (mkDb vat_rows 3) faults [] [].

Definition follow_up : string := "what about for exports?".
Definition rewritten : string := "What is the VAT rate for exports?".

Definition vat_chunk : Document :=
  mkDocument "Exported goods are zero-rated for VAT."
    (<["source" := PStr "finance_act.pdf"]>
       (<["page" := PInt 12]> (<["law_category" := PStr "Taxation"]> ∅))).

Definition llm_rewrite : list Message -> result string :=
  fun _ => Ok rewritten.

Definition retriever_one : string -> result (list Document) :=
  fun _ => Ok [vat_chunk].

Definition retriever_none : string -> result (list Document) :=
  fun _ => Ok [].

Definition retriever_down : string -> result (list Document) :=
  fun _ => Raise (Exception "rerank: connection refused").

Definition answer_found : ComplianceAnswer :=
  mkComplianceAnswer "Exports are zero-rated." true
    [mkCitedSource "finance_act.pdf" (Some 12%Z) None (Some "Taxation") (Some false)]
    "high".

Definition structured_found : list Message -> result ComplianceAnswer :=
  fun _ => Ok answer_found.

End Samples.

(** * Properties *)

(** ** The context assembler *)

Section FormatContext.

(** The loop appends, after the parts it was given, one entry per chunk,
    numbered from its starting counter. *)
Lemma format_context_loop_imap (docs : list Document) :
  forall (i : nat) (parts : list string),
    format_context_loop i docs parts
    = parts ++ imap (fun k d => context_entry (i + k) d) docs.
Proof.
  induction docs as [|d rest IH]; intros i parts; simpl.
  - by rewrite app_nil_r.
  - rewrite IH, <- app_assoc. simpl. rewrite Nat.add_0_r.
    do 2 f_equal. apply imap_ext. intros k x _. simpl.
    f_equal. lia.
Qed.

Lemma format_context_parts (docs : list Document) :
  format_context docs
  = str_join CONTEXT_DELIMITER (imap (fun k d => context_entry (S k) d) docs).
Proof.
  unfold format_context. by rewrite format_context_loop_imap.
Qed.

Lemma format_context_nil : format_context [] = "".
Proof. reflexivity. Qed.

End FormatContext.

(** C4. For every sequence of chunks, [format_context] is the join, with the
    one fixed delimiter (two line feeds, three dashes, two line feeds), of a
    list of entries that has exactly one entry per chunk, in the order of the
    input: the entry at position [i] is the header numbered [i+1] that holds
    the source, the page and the category of the chunk at position [i], each
    once, then a line feed and the raw text of that chunk.  The source, the
    page and the category are what the metadata of the chunk holds at the
    keys source, page and law_category, shown as [str] shows it, and Unknown,
    the question mark and General Compliance where the key is missing. *)
Theorem format_context_one_entry_per_chunk (docs : list Document) :
  exists entries : list string,
    format_context docs
    = String.concat
        (String LF (String LF ("---" +:+ String LF (String LF "")))) entries
    /\ length entries = length docs
    /\ forall (i : nat) (d : Document),
         docs !! i = Some d ->
         let shown (key default_ : string) : string :=
           match metadata d !! key with
           | Some PNone => "None"
           | Some (PStr s) => s
           | Some (PInt z) => pretty z
           | Some (PBool true) => "True"
           | Some (PBool false) => "False"
           | None => default_
           end in
         entries !! i
         = Some ("[" +:+ pretty (S i)
                   +:+ "] Source: " +:+ shown "source" "Unknown"
                   +:+ " | Page: " +:+ shown "page" "?"
                   +:+ " | Category: "
                   +:+ shown "law_category" "General Compliance"
                   +:+ String LF (page_content d)).
Proof.
  exists (imap (fun k d => context_entry (S k) d) docs).
  split; [|split].
  - rewrite format_context_parts.
    generalize (imap (fun k d => context_entry (S k) d) docs).
    intros parts. induction parts as [|part rest IH]; [done|].
    simpl. rewrite IH. by destruct rest.
  - apply length_imap.
  - intros i d Hd shown. rewrite list_lookup_imap, Hd. reflexivity.
Qed.

(** ** The contextualizer *)

(** C2. With an empty history [contextualize_question] returns the question
    as it is and leaves the world as it was, so no model call is made; for any
    history, the calls it adds are none when the history is empty and the one
    call to the plain model otherwise. *)
Theorem contextualize_question_empty_history :
  (forall (q : string) (llm : list Message -> result string) (w : World),
      contextualize_question q [] llm w = (Ok q, w))
  /\ (forall (q : string) (history : list Message)
             (llm : list Message -> result string) (w : World),
         calls (snd (contextualize_question q history llm w))
         = calls w ++
             match history with
             | [] => []
             | _ :: _ => [CallLlm (contextualize_messages q history)]
             end).
Proof.
  split.
  - reflexivity.
  - intros q history llm w. destruct history as [|m history].
    + simpl. by rewrite app_nil_r.
    + unfold contextualize_question, bind, llm_invoke.
      destruct (llm _); reflexivity.
Qed.

(** ** The ingestion cleaner *)

(** C10. Whatever list of documents it is given, [clean_documents] returns
    the empty list, and does so as soon as it may take one step: the loop
    walks the new empty list its first statement bound, not the input. *)
Theorem clean_documents_returns_empty (fuel : nat) (docs : list Document) :
  clean_documents (S fuel) docs = Some [].
Proof. reflexivity. Qed.

(** ** The history store *)

Section HistoryStore.

Lemma insert_by_id_snoc (r x : Row) (rows : list Row) :
  row_id r <= row_id x ->
  insert_by_id r (rows ++ [x]) = insert_by_id r rows ++ [x].
Proof.
  intros Hle. induction rows as [|r' rest IH]; simpl.
  - destruct (Nat.leb_spec (row_id r) (row_id x)); [done | lia].
  - destruct (row_id r <=? row_id r'); [done|]. by rewrite IH.
Qed.

(** A row whose [id] is above all the others is the last one in [id] order. *)
Lemma order_by_id_snoc (x : Row) (rows : list Row) :
  Forall (fun r => row_id r <= row_id x) rows ->
  order_by_id (rows ++ [x]) = order_by_id rows ++ [x].
Proof.
  induction 1 as [|r rest Hr _ IH]; simpl; [done|].
  by rewrite IH, insert_by_id_snoc.
Qed.

Lemma select_messages_snoc (session_id : string) (x : Row) (table : list Row) :
  Forall (fun r => row_id r <= row_id x) table ->
  select_messages session_id (table ++ [x])
  = select_messages session_id table
      ++ (if decide (row_session x = session_id)
          then [(row_role x, row_content x)] else []).
Proof.
  intros Hall. unfold select_messages. rewrite filter_app.
  assert (Hf : Forall (fun r => row_id r <= row_id x)
                 (filter (fun r => row_session r = session_id) table)).
  { apply Forall_forall. intros r Hr. apply list_elem_of_filter in Hr as [_ Hr].
    by eapply Forall_forall in Hall. }
  rewrite filter_cons, filter_nil. case_decide.
  - by rewrite order_by_id_snoc, fmap_app.
  - by rewrite !app_nil_r.
Qed.

Lemma history_of_rows_snoc (rows : list (string * string)) (role content : string) :
  history_of_rows (rows ++ [(role, content)])
  = history_of_rows rows
      ++ [if decide (role = "human") then HumanMessage content
          else AIMessage content].
Proof.
  unfold history_of_rows. rewrite fold_left_app. simpl.
  by case_decide.
Qed.

(** [load_history] never raises, reads the table without changing it, and
    makes no call to a model or the retriever; the history is the rows of
    the session in [id] order, or empty when the database fails. *)
Lemma load_history_run (session_id : string) (w : World) :
  exists (history : list Message) (w1 : World),
    load_history session_id w = (Ok history, w1)
    /\ db w1 = db w
    /\ calls w1 = calls w
    /\ db_faults w1 = tail (db_faults w)
    /\ (history = history_of_rows (select_messages session_id (messages (db w)))
        \/ history = []).
Proof.
  destruct w as [d faults cs lg].
  destruct faults as [|[] faults];
    (eexists; eexists; split; [reflexivity|]; simpl; auto 6).
Qed.

Lemma load_history_no_fault (session_id : string) (w : World) :
  db_faults w = [] ->
  fst (load_history session_id w)
  = Ok (history_of_rows (select_messages session_id (messages (db w)))).
Proof. destruct w as [d faults cs lg]; simpl. by intros ->. Qed.

(** [save_message] never raises and makes no call to a model or the
    retriever. *)
Lemma save_message_run (session_id role content : string) (w : World) :
  exists w1 : World,
    save_message session_id role content w = (Ok tt, w1)
    /\ calls w1 = calls w
    /\ db_faults w1 = tail (db_faults w).
Proof.
  destruct w as [d faults cs lg].
  destruct faults as [|[] faults]; (eexists; split; [reflexivity|]; simpl; auto).
Qed.

Lemma save_message_no_fault (session_id role content : string) (w : World) :
  db_faults w = [] ->
  let w1 := snd (save_message session_id role content w) in
  db w1 = mkDb (messages (db w)
                  ++ [mkRow (S (messages_id_seq (db w))) session_id role content])
            (S (messages_id_seq (db w)))
  /\ db_faults w1 = [].
Proof. destruct w as [d faults cs lg]; simpl. by intros ->. Qed.

End HistoryStore.

(** C7. In a database without faults whose sequence is ahead of its rows, a
    turn saved with [save_message] for a session is, in what [load_history]
    then returns for that session, the last message after all the earlier
    ones, with the text it was saved with: a [HumanMessage] when the role
    was human, an [AIMessage] when it was ai. *)
Theorem save_message_load_history_round_trip
    (session_id role content : string) (w : World) (history : list Message) :
  db_wf (db w) ->
  db_faults w = [] ->
  fst (load_history session_id w) = Ok history ->
  let w1 := snd (save_message session_id role content w) in
  (role = "human" ->
   fst (load_history session_id w1) = Ok (history ++ [HumanMessage content]))
  /\ (role = "ai" ->
      fst (load_history session_id w1) = Ok (history ++ [AIMessage content]))
  /\ db_wf (db w1) /\ db_faults w1 = [].
Proof.
  intros Hwf Hfaults Hload w1.
  rewrite load_history_no_fault in Hload by done.
  injection Hload as <-.
  destruct (save_message_no_fault session_id role content w Hfaults)
    as [Hdb Hf1]. fold w1 in Hdb, Hf1.
  assert (Hnew : fst (load_history session_id w1)
                 = Ok (history_of_rows
                         (select_messages session_id (messages (db w)))
                       ++ [if decide (role = "human") then HumanMessage content
                           else AIMessage content])).
  { rewrite load_history_no_fault, Hdb by done. simpl.
    rewrite select_messages_snoc.
    - simpl. rewrite decide_True by done. by rewrite history_of_rows_snoc.
    - eapply Forall_impl; [apply Hwf|]. simpl. intros; lia. }
  repeat split; try done.
  - intros ->. by rewrite Hnew.
  - intros ->. by rewrite Hnew.
  - unfold db_wf. rewrite Hdb. simpl. apply Forall_app. split.
    + eapply Forall_impl; [apply Hwf|]. simpl. intros; lia.
    + by repeat constructor.
Qed.

(** ** The per-query pipeline *)

Section RagQuery.

Variables (question session_id : string).
Variable retriever : string -> result (list Document).
Variable llm : list Message -> result string.
Variable structured_llm : list Message -> result ComplianceAnswer.

(** The contextualizer does not touch the database. *)
Lemma contextualize_question_db (history : list Message) (w : World) :
  db (snd (contextualize_question question history llm w)) = db w
  /\ db_faults (snd (contextualize_question question history llm w))
     = db_faults w.
Proof.
  destruct history as [|m history]; [done|].
  unfold contextualize_question, bind, llm_invoke.
  destruct (llm _); done.
Qed.

(** What one query does, stage by stage, from the history it loaded: the
    first of the three calls that raises turns the query into the failure
    signal before anything is saved; otherwise the answer of the structured
    model is returned, whatever the two saves did. *)
Lemma rag_query_run (w : World) (history : list Message) (w1 : World) :
  load_history session_id w = (Ok history, w1) ->
  exists (r : result string) (w2 : World),
    contextualize_question question history llm w1 = (r, w2)
    /\ match r with
       | Raise _ =>
           exists w',
             rag_query question session_id retriever llm structured_llm w
             = (Ok None, w')
             /\ db w' = db w1 /\ calls w' = calls w2
       | Ok standalone =>
           match retriever standalone with
           | Raise _ =>
               exists w',
                 rag_query question session_id retriever llm structured_llm w
                 = (Ok None, w')
                 /\ db w' = db w1
                 /\ calls w' = calls w2 ++ [CallRetriever standalone]
           | Ok docs =>
               let msgs :=
                 answer_messages question history (format_context docs) in
               match structured_llm msgs with
               | Raise _ =>
                   exists w',
                     rag_query question session_id retriever llm
                       structured_llm w = (Ok None, w')
                     /\ db w' = db w1
                     /\ calls w' = calls w2
                          ++ [CallRetriever standalone; CallStructuredLlm msgs]
               | Ok result =>
                   exists w',
                     rag_query question session_id retriever llm
                       structured_llm w = (Ok (Some result), w')
                     /\ calls w' = calls w2
                          ++ [CallRetriever standalone; CallStructuredLlm msgs]
               end
           end
       end.
Proof.
  intros Hload.
  destruct (contextualize_question question history llm w1) as [r w2] eqn:Hctx.
  exists r, w2. split; [done|].
  pose proof (contextualize_question_db history w1) as [Hdb2 _].
  rewrite Hctx in Hdb2. simpl in Hdb2.
  destruct r as [standalone|e];
    [destruct (retriever standalone) as [docs|e] eqn:Hret;
     [cbv zeta;
      destruct (structured_llm
                  (answer_messages question history (format_context docs)))
        as [result|e] eqn:Hsllm|]|];
    unfold rag_query, try_except, bind, logger_info, logger_error,
      logger_emit, retriever_invoke, structured_llm_invoke, ret;
    rewrite Hload; cbv beta iota; rewrite Hctx; cbv beta iota;
    rewrite ?Hret; cbv beta iota zeta; cbn [db db_faults calls log];
    rewrite ?Hsllm; cbv beta iota; cbn [db db_faults calls log].
  - match goal with
    | |- context [save_message ?a ?b ?c ?x] =>
        destruct (save_message_run a b c x) as (w3 & -> & Hc3 & _)
    end.
    match goal with
    | |- context [save_message ?a ?b ?c ?x] =>
        destruct (save_message_run a b c x) as (w4 & -> & Hc4 & _)
    end.
    eexists. split; [reflexivity|]. cbn [db db_faults calls log] in *.
    rewrite Hc4, Hc3, <- app_assoc. reflexivity.
  - eexists. split; [reflexivity|]. cbn [db db_faults calls log].
    by rewrite <- app_assoc.
  - eexists. split; [reflexivity|]. by cbn [db db_faults calls log].
  - eexists. split; [reflexivity|]. by cbn [db db_faults calls log].
Qed.

End RagQuery.

(** What [contextualize_question] returned and the call it made for it: with
    no history the question itself and no call, otherwise the reply of the
    plain model to the prompt, the history and the question, and that call. *)
Lemma contextualize_question_reply (question : string) (history : list Message)
    (llm : list Message -> result string) (w1 w2 : World) (standalone : string) :
  contextualize_question question history llm w1 = (Ok standalone, w2) ->
  match history with
  | [] => standalone = question /\ calls w2 = calls w1
  | _ :: _ =>
      llm ([SystemMessage CONTEXTUALIZE_PROMPT] ++ history
             ++ [HumanMessage question]) = Ok standalone
      /\ calls w2
         = calls w1
             ++ [CallLlm ([SystemMessage CONTEXTUALIZE_PROMPT] ++ history
                            ++ [HumanMessage question])]
  end.
Proof.
  destruct history as [|m history].
  - simpl. by intros [= -> ->].
  - unfold contextualize_question, bind, llm_invoke, contextualize_messages.
    destruct (llm _) as [reply|e] eqn:Hllm; [|done].
    simpl. by intros [= -> <-].
Qed.

(** C3. Whenever [rag_query] returns an answer, the retriever was invoked on
    the contextualized question: the reply of the plain model to the
    contextualizing prompt, the loaded history and the question when there is
    a history, and the question itself when there is none.  The structured
    model was invoked on the system prompt, the loaded history and one user
    turn made of the assembled context and the question as the caller gave
    it.  These calls, after the one to the plain model when there is a
    history, are all the calls the query made. *)
Theorem rag_query_retrieves_rewritten_asks_original
    (question session_id : string)
    (retriever : string -> result (list Document))
    (llm : list Message -> result string)
    (structured_llm : list Message -> result ComplianceAnswer)
    (w : World) (result : ComplianceAnswer) (w' : World) :
  rag_query question session_id retriever llm structured_llm w
  = (Ok (Some result), w') ->
  exists (history : list Message) (w1 : World) (standalone : string)
         (w2 : World) (docs : list Document),
    load_history session_id w = (Ok history, w1)
    /\ contextualize_question question history llm w1 = (Ok standalone, w2)
    /\ match history with
       | [] => standalone = question
       | _ :: _ =>
           llm ([SystemMessage CONTEXTUALIZE_PROMPT] ++ history
                  ++ [HumanMessage question]) = Ok standalone
       end
    /\ retriever standalone = Ok docs
    /\ let user := "Context:" +:+ nl +:+ format_context docs +:+ nl +:+ nl
                     +:+ "Question: " +:+ question in
       let msgs := [SystemMessage SYSTEM_PROMPT] ++ history ++ [HumanMessage user] in
       structured_llm msgs = Ok result
       /\ calls w' = calls w2 ++ [CallRetriever standalone; CallStructuredLlm msgs]
       /\ calls w'
          = calls w
              ++ match history with
                 | [] => []
                 | _ :: _ =>
                     [CallLlm ([SystemMessage CONTEXTUALIZE_PROMPT] ++ history
                                 ++ [HumanMessage question])]
                 end
              ++ [CallRetriever standalone; CallStructuredLlm msgs].
Proof.
  intros Hrun.
  destruct (load_history_run session_id w)
    as (history & w1 & Hload & _ & Hcalls1 & _).
  destruct (rag_query_run question session_id retriever llm structured_llm
              w history w1 Hload) as (r & w2 & Hctx & Hcases).
  destruct r as [standalone|e].
  - destruct (retriever standalone) as [docs|e] eqn:Hret.
    + cbv zeta in Hcases.
      destruct (structured_llm _) as [result'|e] eqn:Hsllm.
      * destruct Hcases as (w'' & Hq & Hcalls).
        rewrite Hq in Hrun. injection Hrun as -> ->.
        pose proof (contextualize_question_reply _ _ _ _ _ _ Hctx) as Hreply.
        exists history, w1, standalone, w2, docs.
        split; [done|]. split; [done|].
        split; [by destruct history; destruct Hreply|].
        split; [done|]. cbv zeta. split; [done|]. split; [done|].
        rewrite Hcalls.
        destruct history; destruct Hreply as [_ ->]; rewrite Hcalls1;
          by rewrite <- ?app_assoc.
      * destruct Hcases as (w'' & Hq & _). congruence.
    + destruct Hcases as (w'' & Hq & _). congruence.
  - destruct Hcases as (w'' & Hq & _). congruence.
Qed.

(** A follow-up in a session with two stored turns: the plain model is asked
    to rewrite it, the retriever gets the rewritten question, and the
    structured model gets the context with the follow-up as it was asked. *)
Lemma rag_query_retrieves_rewritten_asks_original_witness :
  calls (snd (rag_query Samples.follow_up "s1" Samples.retriever_one
                Samples.llm_rewrite Samples.structured_found
                (Samples.world_with [])))
  = [ CallLlm ([SystemMessage CONTEXTUALIZE_PROMPT] ++ Samples.vat_history
                 ++ [HumanMessage "what about for exports?"]);
      CallRetriever "What is the VAT rate for exports?";
      CallStructuredLlm
        ([SystemMessage SYSTEM_PROMPT] ++ Samples.vat_history
           ++ [HumanMessage
                 ("Context:" +:+ nl +:+ format_context [Samples.vat_chunk]
                    +:+ nl +:+ nl +:+ "Question: what about for exports?")]) ].
Proof.
  destruct (rag_query_retrieves_rewritten_asks_original
              Samples.follow_up "s1" Samples.retriever_one Samples.llm_rewrite
              Samples.structured_found (Samples.world_with [])
              Samples.answer_found
              (snd (rag_query Samples.follow_up "s1" Samples.retriever_one
                      Samples.llm_rewrite Samples.structured_found
                      (Samples.world_with []))))
    as (history & w1 & standalone & w2 & docs & Hload & _ & Hreply & Hret
        & _ & _ & Hcalls).
  - vm_compute. reflexivity.
  - assert (Hh : history = Samples.vat_history).
    { assert (H := f_equal fst Hload). vm_compute in H. by injection H. }
    subst history. simpl in Hreply. injection Hreply as <-.
    injection Hret as <-. exact Hcalls.
Defined.

(** C5, as the code has it. When the retriever returns no chunk, the
    assembled context is the empty string and [rag_query] raises nothing: it
    returns the answer of the structured model for the prompt with the empty
    context as that model gave it, or the failure signal when that call
    raises. *)
Theorem rag_query_empty_retrieval
    (question session_id : string)
    (retriever : string -> result (list Document))
    (llm : list Message -> result string)
    (structured_llm : list Message -> result ComplianceAnswer)
    (w : World) (history : list Message) (w1 : World)
    (standalone : string) (w2 : World) :
  load_history session_id w = (Ok history, w1) ->
  contextualize_question question history llm w1 = (Ok standalone, w2) ->
  retriever standalone = Ok [] ->
  format_context [] = ""
  /\ fst (rag_query question session_id retriever llm structured_llm w)
     = Ok match structured_llm (answer_messages question history "") with
          | Ok result => Some result
          | Raise _ => None
          end.
Proof.
  intros Hload Hctx Hret. split; [reflexivity|].
  destruct (rag_query_run question session_id retriever llm structured_llm
              w history w1 Hload) as (r & w2' & Hctx' & Hcases).
  rewrite Hctx in Hctx'. injection Hctx' as <- <-.
  rewrite Hret in Hcases. cbv zeta in Hcases.
  rewrite format_context_nil in Hcases.
  destruct (structured_llm _) as [result|e];
    destruct Hcases as (w' & -> & _); reflexivity.
Qed.

Lemma rag_query_empty_retrieval_witness :
  format_context [] = ""
  /\ fst (rag_query Samples.follow_up "s1" Samples.retriever_none
            Samples.llm_rewrite Samples.structured_found (Samples.world_with []))
     = Ok match Samples.structured_found
                  (answer_messages Samples.follow_up Samples.vat_history "") with
          | Ok result => Some result
          | Raise _ => None
          end.
Proof.
  apply (rag_query_empty_retrieval Samples.follow_up "s1" Samples.retriever_none
           Samples.llm_rewrite Samples.structured_found (Samples.world_with [])
           Samples.vat_history
           (snd (load_history "s1" (Samples.world_with [])))
           Samples.rewritten
           (snd (contextualize_question Samples.follow_up Samples.vat_history
                   Samples.llm_rewrite
                   (snd (load_history "s1" (Samples.world_with [])))))).
  - vm_compute. reflexivity.
  - vm_compute. reflexivity.
  - reflexivity.
Defined.

(** C5, as stated, fails: the retriever returns no chunk, the structured
    model answers with [found_in_docs] set, and [rag_query] returns that
    answer. *)
Lemma rag_query_empty_retrieval_found_in_docs_true :
  Samples.retriever_none Samples.follow_up = Ok []
  /\ fst (rag_query Samples.follow_up "s3" Samples.retriever_none
            Samples.llm_rewrite Samples.structured_found (Samples.world_with []))
     = Ok (Some Samples.answer_found)
  /\ found_in_docs Samples.answer_found = true.
Proof. vm_compute. auto. Qed.

(** C6, as the code has it. When the call to the plain model, to the
    retriever or to the structured model raises, [rag_query] returns the
    failure signal and the table is what it was before the query: no turn is
    saved. *)
Theorem rag_query_failure_saves_nothing
    (question session_id : string)
    (retriever : string -> result (list Document))
    (llm : list Message -> result string)
    (structured_llm : list Message -> result ComplianceAnswer)
    (w : World) (history : list Message) (w1 : World)
    (r : result string) (w2 : World) :
  load_history session_id w = (Ok history, w1) ->
  contextualize_question question history llm w1 = (r, w2) ->
  (is_raise r
   \/ exists standalone, r = Ok standalone
        /\ (is_raise (retriever standalone)
            \/ exists docs, retriever standalone = Ok docs
                 /\ is_raise (structured_llm
                                (answer_messages question history
                                   (format_context docs))))) ->
  fst (rag_query question session_id retriever llm structured_llm w) = Ok None
  /\ db (snd (rag_query question session_id retriever llm structured_llm w))
     = db w.
Proof.
  intros Hload Hctx Hfail.
  destruct (load_history_run session_id w) as (h' & w1' & Hload' & Hdb1 & _).
  rewrite Hload in Hload'. injection Hload' as <- <-.
  destruct (rag_query_run question session_id retriever llm structured_llm
              w history w1 Hload) as (r' & w2' & Hctx' & Hcases).
  rewrite Hctx in Hctx'. injection Hctx' as <- <-.
  destruct Hfail as [Hr | (standalone & -> & [Hret | (docs & Hret & Hs)])].
  - destruct r as [|e]; [done|].
    destruct Hcases as (w' & -> & Hdb & _). simpl. by rewrite Hdb.
  - destruct (retriever standalone) as [|e]; [done|].
    destruct Hcases as (w' & -> & Hdb & _). simpl. by rewrite Hdb.
  - rewrite Hret in Hcases. cbv zeta in Hcases.
    destruct (structured_llm _) as [|e]; [done|].
    destruct Hcases as (w' & -> & Hdb & _). simpl. by rewrite Hdb.
Qed.

Lemma rag_query_failure_saves_nothing_witness :
  fst (rag_query Samples.follow_up "s1" Samples.retriever_down
         Samples.llm_rewrite Samples.structured_found (Samples.world_with []))
  = Ok None
  /\ db (snd (rag_query Samples.follow_up "s1" Samples.retriever_down
                Samples.llm_rewrite Samples.structured_found
                (Samples.world_with [])))
     = db (Samples.world_with []).
Proof.
  apply (rag_query_failure_saves_nothing Samples.follow_up "s1"
           Samples.retriever_down Samples.llm_rewrite Samples.structured_found
           (Samples.world_with []) Samples.vat_history
           (snd (load_history "s1" (Samples.world_with [])))
           (Ok Samples.rewritten)
           (snd (contextualize_question Samples.follow_up Samples.vat_history
                   Samples.llm_rewrite
                   (snd (load_history "s1" (Samples.world_with [])))))).
  - vm_compute. reflexivity.
  - vm_compute. reflexivity.
  - right. exists Samples.rewritten. split; [reflexivity|]. left. exact I.
Defined.

(** C6, as stated, fails on the history load: the connection for the load
    cannot be made, [load_history] answers with an empty history, the query
    goes on, returns the answer and saves its two turns. *)
Lemma rag_query_load_failure_still_answers :
  let w := Samples.world_with [FailConnect] in
  let run := rag_query Samples.follow_up "s1" Samples.retriever_one
               Samples.llm_rewrite Samples.structured_found w in
  fst (get_conn w) = Raise (Exception "could not connect to server")
  /\ fst (load_history "s1" w) = Ok []
  /\ fst run = Ok (Some Samples.answer_found)
  /\ messages (db (snd run))
     = messages (db w)
         ++ [ mkRow 4 "s1" "human" Samples.follow_up;
              mkRow 5 "s1" "ai" "Exports are zero-rated." ].
Proof. vm_compute. auto. Qed.

(** C8. Once the structured model has produced its answer, [rag_query]
    returns that answer, whatever faults the database shows during the two
    saves that follow. *)
Theorem rag_query_answer_survives_save_failure
    (question session_id : string)
    (retriever : string -> result (list Document))
    (llm : list Message -> result string)
    (structured_llm : list Message -> result ComplianceAnswer)
    (w : World) (history : list Message) (w1 : World)
    (standalone : string) (w2 : World) (docs : list Document)
    (result : ComplianceAnswer) :
  load_history session_id w = (Ok history, w1) ->
  contextualize_question question history llm w1 = (Ok standalone, w2) ->
  retriever standalone = Ok docs ->
  structured_llm (answer_messages question history (format_context docs))
  = Ok result ->
  fst (rag_query question session_id retriever llm structured_llm w)
  = Ok (Some result).
Proof.
  intros Hload Hctx Hret Hsllm.
  destruct (rag_query_run question session_id retriever llm structured_llm
              w history w1 Hload) as (r & w2' & Hctx' & Hcases).
  rewrite Hctx in Hctx'. injection Hctx' as <- <-.
  rewrite Hret in Hcases. cbv zeta in Hcases. rewrite Hsllm in Hcases.
  by destruct Hcases as (w' & -> & _).
Qed.

(** The load succeeds, the first save cannot connect, the second cannot
    commit: the answer is returned and no row is stored. *)
Lemma rag_query_answer_survives_save_failure_witness :
  let w := Samples.world_with [NoFault; FailConnect; FailCommit] in
  fst (rag_query Samples.follow_up "s1" Samples.retriever_one
         Samples.llm_rewrite Samples.structured_found w)
  = Ok (Some Samples.answer_found)
  /\ messages (db (snd (rag_query Samples.follow_up "s1" Samples.retriever_one
                          Samples.llm_rewrite Samples.structured_found w)))
     = messages (db w).
Proof.
  split.
  - apply (rag_query_answer_survives_save_failure Samples.follow_up "s1"
             Samples.retriever_one Samples.llm_rewrite Samples.structured_found
             (Samples.world_with [NoFault; FailConnect; FailCommit])
             Samples.vat_history
             (snd (load_history "s1"
                     (Samples.world_with [NoFault; FailConnect; FailCommit])))
             Samples.rewritten
             (snd (contextualize_question Samples.follow_up Samples.vat_history
                     Samples.llm_rewrite
                     (snd (load_history "s1"
                             (Samples.world_with
                                [NoFault; FailConnect; FailCommit])))))
             [Samples.vat_chunk]).
    + vm_compute. reflexivity.
    + vm_compute. reflexivity.
    + reflexivity.
    + reflexivity.
  - vm_compute. reflexivity.
Defined.

(** C9, as the code has it. [rag_query] never raises, and it returns the
    failure signal exactly when the call to the plain model, to the retriever
    or to the structured model raises; this holds whatever faults the
    database shows, so a failed history load or save alone never produces the
    failure signal. *)
Theorem rag_query_failure_signal_iff
    (question session_id : string)
    (retriever : string -> result (list Document))
    (llm : list Message -> result string)
    (structured_llm : list Message -> result ComplianceAnswer)
    (w : World) (history : list Message) (w1 : World)
    (r : result string) (w2 : World) :
  load_history session_id w = (Ok history, w1) ->
  contextualize_question question history llm w1 = (r, w2) ->
  (exists outcome : option ComplianceAnswer,
      fst (rag_query question session_id retriever llm structured_llm w)
      = Ok outcome)
  /\ (fst (rag_query question session_id retriever llm structured_llm w)
      = Ok None
      <-> (is_raise r
           \/ exists standalone, r = Ok standalone
                /\ (is_raise (retriever standalone)
                    \/ exists docs, retriever standalone = Ok docs
                         /\ is_raise (structured_llm
                                        (answer_messages question history
                                           (format_context docs)))))).
Proof.
  intros Hload Hctx.
  destruct (rag_query_run question session_id retriever llm structured_llm
              w history w1 Hload) as (r' & w2' & Hctx' & Hcases).
  rewrite Hctx in Hctx'. injection Hctx' as <- <-.
  destruct r as [standalone|e].
  - destruct (retriever standalone) as [docs|e] eqn:Hret.
    + cbv zeta in Hcases.
      destruct (structured_llm _) as [result|e] eqn:Hsllm;
        destruct Hcases as (w' & -> & _); simpl.
      * split; [by eexists|]. split; [done|].
        intros [[] | (s & [= <-] & [Hr | (docs' & Hd & Hs)])].
        -- by rewrite Hret in Hr.
        -- rewrite Hret in Hd. injection Hd as <-. by rewrite Hsllm in Hs.
      * split; [by eexists|]. split; [|done].
        intros _. right. exists standalone. split; [done|]. right.
        exists docs. split; [done|]. by rewrite Hsllm.
    + destruct Hcases as (w' & -> & _). simpl.
      split; [by eexists|]. split; [|done].
      intros _. right. exists standalone. split; [done|]. left.
      by rewrite Hret.
  - destruct Hcases as (w' & -> & _). simpl.
    split; [by eexists|]. split; [|done]. intros _. by left.
Qed.

Lemma rag_query_failure_signal_iff_witness :
  let w := Samples.world_with [FailExecute; FailClose] in
  (exists outcome : option ComplianceAnswer,
      fst (rag_query Samples.follow_up "s1" Samples.retriever_one
             Samples.llm_rewrite Samples.structured_found w) = Ok outcome)
  /\ (fst (rag_query Samples.follow_up "s1" Samples.retriever_one
             Samples.llm_rewrite Samples.structured_found w) = Ok None
      <-> (is_raise (Ok Samples.follow_up)
           \/ exists standalone, Ok Samples.follow_up = Ok standalone
                /\ (is_raise (Samples.retriever_one standalone)
                    \/ exists docs, Samples.retriever_one standalone = Ok docs
                         /\ is_raise (Samples.structured_found
                                        (answer_messages Samples.follow_up []
                                           (format_context docs)))))).
Proof.
  apply (rag_query_failure_signal_iff Samples.follow_up "s1"
           Samples.retriever_one Samples.llm_rewrite Samples.structured_found
           (Samples.world_with [FailExecute; FailClose]) []
           (snd (load_history "s1" (Samples.world_with [FailExecute; FailClose])))
           (Ok Samples.follow_up)
           (snd (load_history "s1" (Samples.world_with [FailExecute; FailClose])))).
  - vm_compute. reflexivity.
  - reflexivity.
Defined.

(** C9, as stated, fails on history I/O: every database operation of the
    query fails at the connection, the load and both saves, each failure is
    logged, and the query still returns the answer, not the failure signal. *)
Lemma rag_query_history_failures_still_answer :
  let w := Samples.world_with [FailConnect; FailConnect; FailConnect] in
  let run := rag_query Samples.follow_up "s1" Samples.retriever_one
               Samples.llm_rewrite Samples.structured_found w in
  fst run = Ok (Some Samples.answer_found)
  /\ db (snd run) = db w
  /\ filter (fun rec => fst rec = ERROR) (log (snd run))
     = [ (ERROR, "Error loading history for session 's1': could not connect to server");
         (ERROR, "Error saving message for session 's1': could not connect to server");
         (ERROR, "Error saving message for session 's1': could not connect to server") ].
Proof. vm_compute. auto. Qed.

(** A follow-up turn saved after the two stored turns of session s1 comes
    back as the third message. *)
Lemma save_message_load_history_round_trip_witness :
  fst (load_history "s1"
         (snd (save_message "s1" "human" Samples.follow_up (Samples.world_with []))))
  = Ok (Samples.vat_history ++ [HumanMessage Samples.follow_up]).
Proof.
  refine (proj1 (save_message_load_history_round_trip "s1" "human"
                   Samples.follow_up (Samples.world_with []) Samples.vat_history
                   _ _ _) _).
  - unfold db_wf. simpl. repeat constructor.
  - reflexivity.
  - vm_compute. reflexivity.
  - reflexivity.
Defined.

(** ** The cleaning expression on a sample page *)

(** Carriage returns become line feeds, four line feeds become two, runs of
    spaces and tabs become one space, and the ends are stripped. *)
Example clean_text_sample :
  clean_text ("  a " +:+ String TAB "  b" +:+ String CR nl +:+ nl +:+ nl
                +:+ String CR "c " +:+ nl)
  = "a b" +:+ nl +:+ nl +:+ "c".
Proof. reflexivity. Qed.

(** Had the loop walked a non-empty list of pages with text, it would append
    to the list it walks and never reach its end. *)
Example clean_loop_on_pages_runs_out :
  clean_loop 50 0 [Samples.vat_chunk] = None.
Proof. vm_compute. reflexivity. Qed.

(** * Further properties of the code *)

(** ** The history store: clearing, isolation, invariants *)

Section HistoryMore.

Lemma order_by_id_Permutation (rows : list Row) : order_by_id rows ≡ₚ rows.
Proof.
  induction rows as [|r rest IH]; simpl; [done|].
  rewrite <- IH at 2. clear IH.
  induction (order_by_id rest) as [|r' l IHl]; simpl; [done|].
  destruct (row_id r <=? row_id r'); [done|].
  by rewrite IHl, Permutation_swap.
Qed.

Lemma insert_by_id_Sorted (r : Row) (rows : list Row) :
  Sorted (fun a b => row_id a <= row_id b) rows ->
  Sorted (fun a b => row_id a <= row_id b) (insert_by_id r rows).
Proof.
  induction 1 as [|r' l Hs IH Hhd]; simpl.
  - by repeat constructor.
  - destruct (Nat.leb_spec (row_id r) (row_id r')).
    + by repeat constructor.
    + constructor; [done|].
      destruct Hhd as [|r'' l' Hle]; simpl.
      * constructor. lia.
      * destruct (row_id r <=? row_id r''); constructor; lia.
Qed.

Lemma order_by_id_Sorted (rows : list Row) :
  Sorted (fun a b => row_id a <= row_id b) (order_by_id rows).
Proof.
  induction rows as [|r rest IH]; simpl; [constructor|].
  by apply insert_by_id_Sorted.
Qed.

Lemma history_of_rows_fmap (rows : list Row) :
  history_of_rows ((fun r => (row_role r, row_content r)) <$> rows)
  = message_of_row <$> rows.
Proof.
  induction rows as [|r rest IH] using rev_ind; [done|].
  rewrite !fmap_app. simpl. rewrite history_of_rows_snoc, IH.
  unfold message_of_row. by case_decide.
Qed.

Lemma clear_session_run (session_id : string) (w : World) :
  exists w1 : World,
    clear_session session_id w = (Ok tt, w1)
    /\ calls w1 = calls w
    /\ db_faults w1 = tail (db_faults w)
    /\ messages_id_seq (db w1) = messages_id_seq (db w)
    /\ (messages (db w1) = messages (db w)
        \/ messages (db w1)
           = filter (fun r => row_session r <> session_id) (messages (db w))).
Proof.
  destruct w as [d faults cs lg].
  destruct faults as [|[] faults];
    (eexists; split; [reflexivity|]; simpl; auto 6).
Qed.

Lemma clear_session_no_fault (session_id : string) (w : World) :
  db_faults w = [] ->
  let w1 := snd (clear_session session_id w) in
  messages (db w1)
  = filter (fun r => row_session r <> session_id) (messages (db w))
  /\ db_faults w1 = [].
Proof. destruct w as [d faults cs lg]; simpl. by intros ->. Qed.

Lemma filter_session_other (session_id other : string) (rows : list Row) :
  session_id <> other ->
  filter (fun r => row_session r = other)
    (filter (fun r => row_session r <> session_id) rows)
  = filter (fun r => row_session r = other) rows.
Proof.
  intros Hne. induction rows as [|r rest IH]; [done|].
  rewrite !filter_cons. repeat case_decide; simplify_eq; try done.
  - rewrite filter_cons. rewrite decide_True by done. by rewrite IH.
  - rewrite filter_cons. rewrite decide_False by done. by rewrite IH.
Qed.

Lemma filter_session_same (session_id : string) (rows : list Row) :
  filter (fun r => row_session r = session_id)
    (filter (fun r => row_session r <> session_id) rows) = [].
Proof.
  induction rows as [|r rest IH]; [done|].
  rewrite filter_cons. case_decide; [|done].
  rewrite filter_cons. by rewrite decide_False by done.
Qed.

(** What [save_message] leaves of the database, whatever the fault. *)
Lemma save_message_db (session_id role content : string) (w : World) :
  db (snd (save_message session_id role content w))
  = db_after_save (fault_at 0 w) (db w) session_id role content
  /\ db_faults (snd (save_message session_id role content w))
     = tail (db_faults w).
Proof.
  destruct w as [[rows seq] faults cs lg].
  destruct faults as [|[] faults]; done.
Qed.

Lemma db_after_save_wf (f : db_fault) (d : Db) (session_id role content : string) :
  db_wf d -> db_wf (db_after_save f d session_id role content).
Proof.
  intros Hwf.
  assert (Hup : Forall (fun r => row_id r <= S (messages_id_seq d)) (messages d)).
  { eapply Forall_impl; [apply Hwf|]. simpl. intros; lia. }
  destruct f; unfold db_wf; simpl; try done;
    apply Forall_app; split; try done; by repeat constructor.
Qed.

Lemma db_after_save_ids_unique (f : db_fault) (d : Db)
    (session_id role content : string) :
  db_wf d -> ids_unique d ->
  ids_unique (db_after_save f d session_id role content).
Proof.
  intros Hwf Hnd.
  assert (Hfresh : S (messages_id_seq d) ∉ row_id <$> messages d).
  { intros (r & Heq & Hr)%list_elem_of_fmap.
    eapply Forall_forall in Hwf; [|done]. simpl in Hwf. lia. }
  destruct f; unfold ids_unique; simpl; try done;
    rewrite fmap_app; simpl; apply NoDup_app; (split; [done|]);
    (split; [|apply NoDup_singleton]);
    intros x Hx ->%list_elem_of_singleton; done.
Qed.

Lemma db_after_save_other_session (f : db_fault) (d : Db)
    (session_id role content other : string) :
  session_id <> other ->
  select_messages other (messages (db_after_save f d session_id role content))
  = select_messages other (messages d).
Proof.
  intros Hne. destruct f; simpl; try done;
    unfold select_messages; rewrite filter_app, filter_cons, filter_nil;
    simpl; rewrite decide_False by done; by rewrite app_nil_r.
Qed.

End HistoryMore.

(** X1. In a database without faults, after [clear_session] for a session
    [load_history] returns no message for that session and, for every other
    session, the messages it returned before. *)
Theorem clear_session_empties_only_that_session
    (session_id other : string) (w : World) :
  db_faults w = [] ->
  let w1 := snd (clear_session session_id w) in
  fst (load_history session_id w1) = Ok []
  /\ (session_id <> other ->
      fst (load_history other w1) = fst (load_history other w)).
Proof.
  intros Hf w1.
  destruct (clear_session_no_fault session_id w Hf) as [Hm Hf1].
  fold w1 in Hm, Hf1.
  rewrite !load_history_no_fault by done. rewrite Hm. split.
  - unfold select_messages. by rewrite filter_session_same.
  - intros Hne. unfold select_messages. by rewrite filter_session_other.
Qed.

Lemma clear_session_empties_only_that_session_witness :
  fst (load_history "s1" (snd (clear_session "s1" (Samples.world_with []))))
  = Ok []
  /\ ("s1" <> "s2" ->
      fst (load_history "s2" (snd (clear_session "s1" (Samples.world_with []))))
      = fst (load_history "s2" (Samples.world_with []))).
Proof.
  apply (clear_session_empties_only_that_session "s1" "s2"
           (Samples.world_with [])).
  reflexivity.
Defined.

(** X2. Whatever fault the database shows, [clear_session] raises nothing,
    leaves the sequence where it was, and leaves every row of every other
    session in the table, in the order it had. *)
Theorem clear_session_keeps_other_sessions (session_id : string) (w : World) :
  fst (clear_session session_id w) = Ok tt
  /\ messages_id_seq (db (snd (clear_session session_id w)))
     = messages_id_seq (db w)
  /\ filter (fun r => row_session r <> session_id)
       (messages (db (snd (clear_session session_id w))))
     = filter (fun r => row_session r <> session_id) (messages (db w)).
Proof.
  destruct (clear_session_run session_id w)
    as (w1 & -> & _ & _ & Hseq & [Hm | Hm]); simpl;
    (split; [done|]); (split; [done|]); rewrite Hm; [done|].
  apply list_filter_filter_l. done.
Qed.

(** X3. Whatever fault the database shows, [save_message] raises nothing and
    only ever appends: the rows that were in the table stay, in their order,
    followed by nothing or by the one new row, whose [id] is the next value of
    the sequence. *)
Theorem save_message_appends_at_most_one_row
    (session_id role content : string) (w : World) :
  fst (save_message session_id role content w) = Ok tt
  /\ exists extra : list Row,
       messages (db (snd (save_message session_id role content w)))
       = messages (db w) ++ extra
       /\ (extra = []
           \/ extra = [mkRow (S (messages_id_seq (db w))) session_id role content]).
Proof.
  split.
  - by destruct (save_message_run session_id role content w) as (w1 & -> & _).
  - destruct (save_message_db session_id role content w) as [-> _].
    destruct (fault_at 0 w); simpl;
      first [ by exists []; rewrite app_nil_r; auto
            | eexists; split; [reflexivity|]; auto ].
Qed.

(** X4. [save_message] keeps the table well formed whatever fault the
    database shows: if the sequence is ahead of every stored [id] and no two
    rows share an [id], the same holds afterwards. *)
Theorem save_message_keeps_ids_fresh_and_unique
    (session_id role content : string) (w : World) :
  db_wf (db w) -> ids_unique (db w) ->
  db_wf (db (snd (save_message session_id role content w)))
  /\ ids_unique (db (snd (save_message session_id role content w))).
Proof.
  intros Hwf Hnd.
  destruct (save_message_db session_id role content w) as [-> _].
  split; [by apply db_after_save_wf | by apply db_after_save_ids_unique].
Qed.

Lemma save_message_keeps_ids_fresh_and_unique_witness :
  db_wf (db (snd (save_message "s1" "human" Samples.follow_up
                    (Samples.world_with [FailCommit]))))
  /\ ids_unique (db (snd (save_message "s1" "human" Samples.follow_up
                            (Samples.world_with [FailCommit])))).
Proof.
  apply (save_message_keeps_ids_fresh_and_unique "s1" "human" Samples.follow_up
           (Samples.world_with [FailCommit])).
  - unfold db_wf. simpl. repeat constructor.
  - unfold ids_unique. simpl. apply NoDup_ListNoDup.
    repeat constructor; simpl; intuition discriminate.
Defined.

(** X5. A turn saved for one session never shows in another: whatever fault
    the database shows during the save, the rows the history query selects
    for any other session are the same before and after. *)
Theorem save_message_leaves_other_sessions
    (session_id role content other : string) (w : World) :
  session_id <> other ->
  select_messages other
    (messages (db (snd (save_message session_id role content w))))
  = select_messages other (messages (db w)).
Proof.
  intros Hne.
  destruct (save_message_db session_id role content w) as [-> _].
  by apply db_after_save_other_session.
Qed.

Lemma save_message_leaves_other_sessions_witness :
  select_messages "s2"
    (messages (db (snd (save_message "s1" "human" Samples.follow_up
                          (Samples.world_with [])))))
  = select_messages "s2" (messages (db (Samples.world_with []))).
Proof.
  apply (save_message_leaves_other_sessions "s1" "human" Samples.follow_up "s2"
           (Samples.world_with [])).
  discriminate.
Defined.

(** X6. [load_history] knows one role only: a turn saved with any role other
    than the exact string human, such as system or Human, comes back as an
    [AIMessage]. *)
Theorem load_history_other_role_is_ai
    (session_id role content : string) (w : World) (history : list Message) :
  db_wf (db w) ->
  db_faults w = [] ->
  role <> "human" ->
  fst (load_history session_id w) = Ok history ->
  fst (load_history session_id (snd (save_message session_id role content w)))
  = Ok (history ++ [AIMessage content]).
Proof.
  intros Hwf Hfaults Hrole Hload.
  rewrite load_history_no_fault in Hload by done. injection Hload as <-.
  destruct (save_message_no_fault session_id role content w Hfaults)
    as [Hdb Hf1].
  rewrite load_history_no_fault, Hdb by done. simpl.
  rewrite select_messages_snoc.
  - simpl. rewrite decide_True by done. rewrite history_of_rows_snoc.
    by rewrite decide_False by done.
  - eapply Forall_impl; [apply Hwf|]. simpl. intros; lia.
Qed.

Lemma load_history_other_role_is_ai_witness :
  fst (load_history "s1"
         (snd (save_message "s1" "Human" Samples.follow_up
                 (Samples.world_with []))))
  = Ok (Samples.vat_history ++ [AIMessage Samples.follow_up]).
Proof.
  apply (load_history_other_role_is_ai "s1" "Human" Samples.follow_up
           (Samples.world_with []) Samples.vat_history).
  - unfold db_wf. simpl. repeat constructor.
  - reflexivity.
  - discriminate.
  - vm_compute. reflexivity.
Defined.

(** X7. When the database fails during a load, at the connection, at the
    query or even at the close after the rows were fetched, [load_history]
    returns the empty history as if the session were new, and the table is
    untouched. *)
Theorem load_history_fault_gives_empty_history
    (session_id : string) (w : World) (f : db_fault) (rest : list db_fault) :
  db_faults w = f :: rest ->
  f = FailConnect \/ f = FailExecute \/ f = FailClose ->
  fst (load_history session_id w) = Ok []
  /\ db (snd (load_history session_id w)) = db w.
Proof.
  destruct w as [d faults cs lg]. simpl. intros -> [-> | [-> | ->]]; done.
Qed.

Lemma load_history_fault_gives_empty_history_witness :
  fst (load_history "s1" (Samples.world_with [FailClose])) = Ok []
  /\ db (snd (load_history "s1" (Samples.world_with [FailClose])))
     = db (Samples.world_with [FailClose]).
Proof.
  apply (load_history_fault_gives_empty_history "s1"
           (Samples.world_with [FailClose]) FailClose []).
  - reflexivity.
  - right. right. reflexivity.
Defined.

(** X8. In a database without faults [load_history] returns one message per
    row of the session, no other, ordered by [id]: the messages are those of
    a list of rows that is a permutation of the rows of the session and is
    sorted on [id], whatever the order of the rows in the table. *)
Theorem load_history_is_session_rows_by_id (session_id : string) (w : World) :
  db_faults w = [] ->
  exists rows : list Row,
    rows ≡ₚ filter (fun r => row_session r = session_id) (messages (db w))
    /\ Sorted (fun a b => row_id a <= row_id b) rows
    /\ fst (load_history session_id w)
       = Ok ((fun r => if decide (row_role r = "human")
                       then HumanMessage (row_content r)
                       else AIMessage (row_content r)) <$> rows).
Proof.
  intros Hf.
  exists (order_by_id
            (filter (fun r => row_session r = session_id) (messages (db w)))).
  split; [apply order_by_id_Permutation|].
  split; [apply order_by_id_Sorted|].
  rewrite load_history_no_fault by done.
  unfold select_messages. by rewrite history_of_rows_fmap.
Qed.

Lemma load_history_is_session_rows_by_id_witness :
  exists rows : list Row,
    rows ≡ₚ filter (fun r => row_session r = "s1")
              (messages (db (Samples.world_with [])))
    /\ Sorted (fun a b => row_id a <= row_id b) rows
    /\ fst (load_history "s1" (Samples.world_with []))
       = Ok ((fun r => if decide (row_role r = "human")
                       then HumanMessage (row_content r)
                       else AIMessage (row_content r)) <$> rows).
Proof.
  apply (load_history_is_session_rows_by_id "s1" (Samples.world_with [])).
  reflexivity.
Defined.

(** ** The per-query pipeline and the history it leaves *)

Section RagQueryMore.

Variables (question session_id : string).
Variable retriever : string -> result (list Document).
Variable llm : list Message -> result string.
Variable structured_llm : list Message -> result ComplianceAnswer.

Lemma fault_at_tail (n : nat) (w w1 : World) :
  db_faults w1 = tail (db_faults w) -> fault_at n w1 = fault_at (S n) w.
Proof. unfold fault_at. intros ->. by rewrite lookup_tail. Qed.

(** The database after one query: as it was when the query gave the failure
    signal, and after the two saves, each under the fault of its own
    connection, when the query gave an answer. *)
Lemma rag_query_db (w : World) :
  (fst (rag_query question session_id retriever llm structured_llm w) = Ok None
   /\ db (snd (rag_query question session_id retriever llm structured_llm w))
      = db w
   /\ db_faults
        (snd (rag_query question session_id retriever llm structured_llm w))
      = tail (db_faults w))
  \/ (exists result : ComplianceAnswer,
        fst (rag_query question session_id retriever llm structured_llm w)
        = Ok (Some result)
        /\ db (snd (rag_query question session_id retriever llm structured_llm w))
           = db_after_save (fault_at 2 w)
               (db_after_save (fault_at 1 w) (db w) session_id "human" question)
               session_id "ai" (answer result)
        /\ db_faults
             (snd (rag_query question session_id retriever llm structured_llm w))
           = tail (tail (tail (db_faults w)))).
Proof.
  destruct (load_history_run session_id w)
    as (history & w1 & Hload & Hdb1 & _ & Hf1 & _).
  destruct (contextualize_question question history llm w1) as [r w2] eqn:Hctx.
  pose proof (contextualize_question_db question llm history w1) as [Hdb2 Hf2].
  rewrite Hctx in Hdb2, Hf2. simpl in Hdb2, Hf2.
  destruct r as [standalone|e];
    [destruct (retriever standalone) as [docs|e] eqn:Hret;
     [destruct (structured_llm
                  (answer_messages question history (format_context docs)))
        as [result|e] eqn:Hsllm|]|];
    unfold rag_query, try_except, bind, logger_info, logger_error,
      logger_emit, retriever_invoke, structured_llm_invoke, ret;
    rewrite Hload; cbv beta iota; rewrite Hctx; cbv beta iota;
    rewrite ?Hret; cbv beta iota zeta; cbn [db db_faults calls log];
    rewrite ?Hsllm; cbv beta iota; cbn [db db_faults calls log];
    [right | left; simpl; repeat split; congruence ..].
  match goal with
  | |- context [save_message ?a ?b ?c ?x] =>
      pose proof (save_message_db a b c x) as [Hd3 Hf3];
      destruct (save_message_run a b c x) as (w3 & Hs3 & _);
      rewrite Hs3 in Hd3, Hf3 |- *;
      rewrite (fault_at_tail 0 w x) in Hd3
        by (cbn [db_faults]; congruence)
  end.
  match goal with
  | |- context [save_message ?a ?b ?c ?x] =>
      pose proof (save_message_db a b c x) as [Hd4 Hf4];
      destruct (save_message_run a b c x) as (w4 & Hs4 & _);
      rewrite Hs4 in Hd4, Hf4 |- *
  end.
  cbn [fst snd db db_faults] in *.
  exists result. split; [reflexivity|]. cbn [fst snd db db_faults]. split.
  - rewrite Hd4, Hd3, Hdb2, Hdb1. f_equal.
    unfold fault_at. rewrite Hf3, Hf2, Hf1, !lookup_tail. done.
  - rewrite Hf4, Hf3, Hf2, Hf1. done.
Qed.

End RagQueryMore.

Section AfterTheQuery.

Lemma fault_at_nil (n : nat) (w : World) : db_faults w = [] -> fault_at n w = NoFault.
Proof. unfold fault_at. by intros ->. Qed.

(** A row stored by a save without fault is the last message of its session. *)
Lemma history_after_stored_row (d : Db) (session_id role content : string) :
  db_wf d ->
  history_of_rows
    (select_messages session_id
       (messages (db_after_save NoFault d session_id role content)))
  = history_of_rows (select_messages session_id (messages d))
      ++ [if decide (role = "human") then HumanMessage content
          else AIMessage content].
Proof.
  intros Hwf. simpl. rewrite select_messages_snoc.
  - simpl. rewrite decide_True by done. by rewrite history_of_rows_snoc.
  - eapply Forall_impl; [apply Hwf|]. simpl. intros; lia.
Qed.

Lemma load_history_fault_run (session_id : string) (w : World)
    (f : db_fault) (rest : list db_fault) :
  db_faults w = f :: rest ->
  f = FailConnect \/ f = FailExecute \/ f = FailClose ->
  exists w1, load_history session_id w = (Ok [], w1) /\ calls w1 = calls w.
Proof.
  destruct w as [d faults cs lg]. simpl.
  intros -> [-> | [-> | ->]]; by eexists.
Qed.

End AfterTheQuery.

(** X9. In a database without faults, a query that returns an answer makes
    the history of its session two messages longer: what [load_history]
    returned before, then the question as the caller asked it, not as it was
    rewritten, then the text of the answer. *)
Theorem rag_query_appends_question_and_answer
    (question session_id : string)
    (retriever : string -> result (list Document))
    (llm : list Message -> result string)
    (structured_llm : list Message -> result ComplianceAnswer)
    (w : World) (history : list Message) (result : ComplianceAnswer) :
  db_wf (db w) ->
  db_faults w = [] ->
  fst (load_history session_id w) = Ok history ->
  fst (rag_query question session_id retriever llm structured_llm w)
  = Ok (Some result) ->
  fst (load_history session_id
         (snd (rag_query question session_id retriever llm structured_llm w)))
  = Ok (history ++ [HumanMessage question; AIMessage (answer result)]).
Proof.
  intros Hwf Hf Hload Hrun.
  rewrite load_history_no_fault in Hload by done. injection Hload as <-.
  destruct (rag_query_db question session_id retriever llm structured_llm w)
    as [(Hnone & _) | (result' & Hsome & Hdb & Hfaults)]; [congruence|].
  rewrite Hsome in Hrun. injection Hrun as ->.
  rewrite Hf in Hfaults. simpl in Hfaults.
  rewrite !fault_at_nil in Hdb by done.
  rewrite load_history_no_fault, Hdb by done.
  rewrite history_after_stored_row by by apply db_after_save_wf.
  rewrite history_after_stored_row by done.
  rewrite <- app_assoc. reflexivity.
Qed.

Lemma rag_query_appends_question_and_answer_witness :
  fst (load_history "s1"
         (snd (rag_query Samples.follow_up "s1" Samples.retriever_one
                 Samples.llm_rewrite Samples.structured_found
                 (Samples.world_with []))))
  = Ok (Samples.vat_history
          ++ [HumanMessage Samples.follow_up;
              AIMessage (answer Samples.answer_found)]).
Proof.
  apply (rag_query_appends_question_and_answer Samples.follow_up "s1"
           Samples.retriever_one Samples.llm_rewrite Samples.structured_found
           (Samples.world_with []) Samples.vat_history Samples.answer_found).
  - unfold db_wf. simpl. repeat constructor.
  - reflexivity.
  - vm_compute. reflexivity.
  - vm_compute. reflexivity.
Defined.

(** X10. A query never touches the history of another session: whatever the
    models, the retriever and the database do, the rows the history query
    selects for any other session are the same before and after. *)
Theorem rag_query_leaves_other_sessions
    (question session_id other : string)
    (retriever : string -> result (list Document))
    (llm : list Message -> result string)
    (structured_llm : list Message -> result ComplianceAnswer)
    (w : World) :
  session_id <> other ->
  select_messages other
    (messages
       (db (snd (rag_query question session_id retriever llm structured_llm w))))
  = select_messages other (messages (db w)).
Proof.
  intros Hne.
  destruct (rag_query_db question session_id retriever llm structured_llm w)
    as [(_ & -> & _) | (result & _ & -> & _)]; [done|].
  by rewrite !db_after_save_other_session.
Qed.

Lemma rag_query_leaves_other_sessions_witness :
  select_messages "s2"
    (messages
       (db (snd (rag_query Samples.follow_up "s1" Samples.retriever_one
                   Samples.llm_rewrite Samples.structured_found
                   (Samples.world_with [])))))
  = select_messages "s2" (messages (db (Samples.world_with []))).
Proof.
  apply (rag_query_leaves_other_sessions Samples.follow_up "s1" "s2"
           Samples.retriever_one Samples.llm_rewrite Samples.structured_found
           (Samples.world_with [])).
  discriminate.
Defined.

(** X11. A query keeps the table well formed, whatever the models, the
    retriever and the database do: if the sequence is ahead of every stored
    [id] and no two rows share an [id], the same holds after the query. *)
Theorem rag_query_keeps_ids_fresh_and_unique
    (question session_id : string)
    (retriever : string -> result (list Document))
    (llm : list Message -> result string)
    (structured_llm : list Message -> result ComplianceAnswer)
    (w : World) :
  db_wf (db w) -> ids_unique (db w) ->
  db_wf (db (snd (rag_query question session_id retriever llm structured_llm w)))
  /\ ids_unique
       (db (snd (rag_query question session_id retriever llm structured_llm w))).
Proof.
  intros Hwf Hnd.
  destruct (rag_query_db question session_id retriever llm structured_llm w)
    as [(_ & -> & _) | (result & _ & -> & _)]; [done|].
  split.
  - by do 2 apply db_after_save_wf.
  - apply db_after_save_ids_unique;
      [by apply db_after_save_wf | by apply db_after_save_ids_unique].
Qed.

Lemma rag_query_keeps_ids_fresh_and_unique_witness :
  let w := Samples.world_with [NoFault; FailCommit; FailClose] in
  db_wf (db (snd (rag_query Samples.follow_up "s1" Samples.retriever_one
                    Samples.llm_rewrite Samples.structured_found w)))
  /\ ids_unique
       (db (snd (rag_query Samples.follow_up "s1" Samples.retriever_one
                   Samples.llm_rewrite Samples.structured_found w))).
Proof.
  apply (rag_query_keeps_ids_fresh_and_unique Samples.follow_up "s1"
           Samples.retriever_one Samples.llm_rewrite Samples.structured_found
           (Samples.world_with [NoFault; FailCommit; FailClose])).
  - unfold db_wf. simpl. repeat constructor.
  - unfold ids_unique. simpl. apply NoDup_ListNoDup.
    repeat constructor; simpl; intuition discriminate.
Defined.

(** X12. When the load and the first save go through and the second save
    fails before its commit is done, the query still returns its answer and
    the table has gained the question alone: a human turn with no ai turn
    after it. *)
Theorem rag_query_second_save_fault_leaves_question_alone
    (question session_id : string)
    (retriever : string -> result (list Document))
    (llm : list Message -> result string)
    (structured_llm : list Message -> result ComplianceAnswer)
    (w : World) (f : db_fault) (rest : list db_fault)
    (result : ComplianceAnswer) :
  db_faults w = NoFault :: NoFault :: f :: rest ->
  f = FailConnect \/ f = FailExecute \/ f = FailCommit ->
  fst (rag_query question session_id retriever llm structured_llm w)
  = Ok (Some result) ->
  messages
    (db (snd (rag_query question session_id retriever llm structured_llm w)))
  = messages (db w)
      ++ [mkRow (S (messages_id_seq (db w))) session_id "human" question].
Proof.
  intros Hf Hwhich Hrun.
  destruct (rag_query_db question session_id retriever llm structured_llm w)
    as [(Hnone & _) | (result' & _ & -> & _)]; [congruence|].
  unfold fault_at. rewrite Hf. simpl.
  by destruct Hwhich as [-> | [-> | ->]].
Qed.

Lemma rag_query_second_save_fault_leaves_question_alone_witness :
  let w := Samples.world_with [NoFault; NoFault; FailConnect] in
  messages
    (db (snd (rag_query Samples.follow_up "s1" Samples.retriever_one
                Samples.llm_rewrite Samples.structured_found w)))
  = messages (db w) ++ [mkRow 4 "s1" "human" Samples.follow_up].
Proof.
  apply (rag_query_second_save_fault_leaves_question_alone Samples.follow_up
           "s1" Samples.retriever_one Samples.llm_rewrite
           Samples.structured_found
           (Samples.world_with [NoFault; NoFault; FailConnect])
           FailConnect [] Samples.answer_found).
  - reflexivity.
  - left. reflexivity.
  - vm_compute. reflexivity.
Defined.

(** X13. When the history load fails, the follow-up question is not
    contextualized although the session has stored turns: the plain model is
    not called and the first call of the query is the retriever on the
    question as the caller asked it. *)
Theorem rag_query_load_fault_skips_contextualizing
    (question session_id : string)
    (retriever : string -> result (list Document))
    (llm : list Message -> result string)
    (structured_llm : list Message -> result ComplianceAnswer)
    (w : World) (f : db_fault) (rest : list db_fault) :
  db_faults w = f :: rest ->
  f = FailConnect \/ f = FailExecute \/ f = FailClose ->
  exists later : list Call,
    calls (snd (rag_query question session_id retriever llm structured_llm w))
    = calls w ++ CallRetriever question :: later
    /\ Forall (fun c => forall msgs, c <> CallLlm msgs) later.
Proof.
  intros Hf Hwhich.
  destruct (load_history_fault_run session_id w f rest Hf Hwhich)
    as (w1 & Hload & Hcalls1).
  destruct (rag_query_run question session_id retriever llm structured_llm
              w [] w1 Hload) as (r & w2 & Hctx & Hcases).
  simpl in Hctx. injection Hctx as <- <-.
  destruct (retriever question) as [docs|e].
  - cbv zeta in Hcases.
    destruct (structured_llm _) as [result|e];
      destruct Hcases as (w' & -> & Hc); [|destruct Hc as [_ Hc]];
      simpl; rewrite Hc, Hcalls1; eexists; (split; [reflexivity|]);
      by repeat constructor.
  - destruct Hcases as (w' & -> & _ & Hc). simpl. rewrite Hc, Hcalls1.
    exists []. split; [done | constructor].
Qed.

Lemma rag_query_load_fault_skips_contextualizing_witness :
  exists later : list Call,
    calls (snd (rag_query Samples.follow_up "s1" Samples.retriever_one
                  Samples.llm_rewrite Samples.structured_found
                  (Samples.world_with [FailExecute])))
    = calls (Samples.world_with [FailExecute])
        ++ CallRetriever Samples.follow_up :: later
    /\ Forall (fun c => forall msgs, c <> CallLlm msgs) later.
Proof.
  apply (rag_query_load_fault_skips_contextualizing Samples.follow_up "s1"
           Samples.retriever_one Samples.llm_rewrite Samples.structured_found
           (Samples.world_with [FailExecute]) FailExecute []).
  - reflexivity.
  - right. left. reflexivity.
Defined.

(** ** The context assembler: emptiness, missing keys, delimiters *)

Section FormatContextMore.

Lemma string_app_cons (a : ascii) (s t : string) :
  String a s +:+ t = String a (s +:+ t).
Proof. reflexivity. Qed.

Lemma string_app_assoc (s1 s2 s3 : string) :
  s1 +:+ s2 +:+ s3 = (s1 +:+ s2) +:+ s3.
Proof.
  induction s1 as [|a s1 IH]; [done|].
  by rewrite !string_app_cons, IH.
Qed.

Lemma string_app_nil_r (s : string) : s +:+ "" = s.
Proof.
  induction s as [|a s IH]; [done|]. by rewrite string_app_cons, IH.
Qed.

Lemma context_entry_starts_with_bracket (i : nat) (d : Document) :
  exists rest : string, context_entry i d = String "[" rest.
Proof. by eexists. Qed.

Lemma context_entry_app (i : nat) (d : Document) (more : string) :
  context_entry i d +:+ more
  = context_entry i (mkDocument (page_content d +:+ more) (metadata d)).
Proof.
  unfold context_entry, metadata_get. simpl.
  by rewrite <- !string_app_assoc.
Qed.

End FormatContextMore.

(** X14. The assembled context is the empty string exactly when there is no
    chunk: any chunk, even one with empty text and no metadata, gives a
    non-empty context. *)
Theorem format_context_empty_iff_no_chunk (docs : list Document) :
  format_context docs = "" <-> docs = [].
Proof.
  split; [|by intros ->].
  destruct docs as [|d rest]; [done|].
  rewrite format_context_parts. rewrite imap_cons.
  destruct (context_entry_starts_with_bracket 1 d) as [tl ->].
  simpl. by destruct (imap _ rest).
Qed.

(** X15. A chunk whose metadata lacks the three keys the header reads is
    rendered with the defaults: source Unknown, page ?, category General
    Compliance. *)
Theorem format_context_missing_metadata_defaults
    (text : string) (m : gmap string pyval) :
  m !! "source" = None ->
  m !! "page" = None ->
  m !! "law_category" = None ->
  format_context [mkDocument text m]
  = "[1] Source: Unknown | Page: ? | Category: General Compliance"
      +:+ nl +:+ text.
Proof.
  intros Hs Hp Hc. unfold format_context. simpl.
  unfold context_entry, metadata_get. simpl. by rewrite Hs, Hp, Hc.
Qed.

Lemma format_context_missing_metadata_defaults_witness :
  format_context [mkDocument "Exported goods are zero-rated."
                    (<["start_index" := PInt 0]> ∅)]
  = "[1] Source: Unknown | Page: ? | Category: General Compliance"
      +:+ nl +:+ "Exported goods are zero-rated.".
Proof.
  apply (format_context_missing_metadata_defaults
           "Exported goods are zero-rated." (<["start_index" := PInt 0]> ∅));
    reflexivity.
Defined.

(** X16. The assembler does not escape its delimiter: two chunks give the
    very context that one chunk gives whose text is the text of the first,
    the delimiter and the whole entry of the second.  So the context cannot
    be split back into its chunks, and the text of a chunk can pass for a
    further entry. *)
Theorem format_context_does_not_escape_delimiter (d1 d2 : Document) :
  format_context [d1; d2]
  = format_context
      [mkDocument
         (page_content d1 +:+ CONTEXT_DELIMITER +:+ context_entry 2 d2)
         (metadata d1)].
Proof.
  unfold format_context. simpl. by rewrite context_entry_app.
Qed.

(** ** The category of a source file *)

Section TagLawCategory.

Lemma lower_app (s t : string) : lower (s +:+ t) = lower s +:+ lower t.
Proof.
  induction s as [|a s IH]; [done|].
  rewrite string_app_cons. simpl. by rewrite IH.
Qed.

Lemma startswith_app (word rest : string) : startswith word (word +:+ rest) = true.
Proof.
  induction word as [|a word IH]; [done|].
  rewrite string_app_cons. simpl. by rewrite Ascii.eqb_refl, IH.
Qed.

Lemma startswith_spec (word s : string) :
  startswith word s = true <-> exists post, s = word +:+ post.
Proof.
  split.
  - revert s. induction word as [|a word IH]; intros s H.
    + by exists s.
    + destruct s as [|b s]; [done|]. simpl in H.
      apply andb_true_iff in H as [Hab Hw].
      apply Ascii.eqb_eq in Hab as ->.
      destruct (IH s Hw) as [post ->]. by exists post.
  - intros [post ->]. apply startswith_app.
Qed.

(** [word in s] holds exactly when [s] is some text, the word, some text. *)
Lemma str_contains_spec (word s : string) :
  str_contains word s = true <-> exists pre post, s = pre +:+ word +:+ post.
Proof.
  split.
  - induction s as [|b s IH]; simpl; intros H.
    + apply orb_true_iff in H as [H|H]; [|done].
      apply startswith_spec in H as [post ->]. by exists "", post.
    + apply orb_true_iff in H as [H|H].
      * apply startswith_spec in H as [post ->]. by exists "", post.
      * destruct (IH H) as (pre & post & ->). by exists (String b pre), post.
  - intros (pre & post & ->). induction pre as [|b pre IH].
    + change ("" +:+ word +:+ post) with (word +:+ post).
      destruct (word +:+ post) eqn:E; simpl;
        rewrite <- E, startswith_app; done.
    + rewrite string_app_cons. simpl. rewrite IH. apply orb_true_r.
Qed.

Lemma tag_law_category_loop_range (items : list (string * list string))
    (source_lower : string) :
  tag_law_category_loop items source_lower
  ∈ "General Compliance" :: (fst <$> items).
Proof.
  induction items as [|[category keywords] rest IH]; simpl.
  - by left.
  - destruct (existsb _ keywords).
    + right. by left.
    + apply elem_of_cons in IH as [-> | IH]; [by left|].
      right. by right.
Qed.

(** The loop stops at the first item one of whose keywords occurs. *)
Lemma tag_law_category_loop_first (items : list (string * list string))
    (source_lower : string) (i : nat) (category : string)
    (keywords : list string) :
  items !! i = Some (category, keywords) ->
  existsb (fun word => str_contains word source_lower) keywords = true ->
  (forall j item, j < i -> items !! j = Some item ->
     existsb (fun word => str_contains word source_lower) (snd item) = false) ->
  tag_law_category_loop items source_lower = category.
Proof.
  revert i. induction items as [|[c kws] rest IH]; intros i Hi Hhit Hbefore.
  - done.
  - destruct i as [|i]; simpl in *.
    + injection Hi as -> ->. by rewrite Hhit.
    + pose proof (Hbefore 0 (c, kws) ltac:(lia) eq_refl) as H0.
      simpl in H0. rewrite H0.
      apply (IH i); [done..|].
      intros j item Hj Hitem. apply (Hbefore (S j) item); [lia | done].
Qed.

Lemma tag_law_category_loop_none (items : list (string * list string))
    (source_lower : string) :
  "General Compliance" ∉ (fst <$> items) ->
  tag_law_category_loop items source_lower = "General Compliance"
  <-> Forall (fun item =>
                existsb (fun word => str_contains word source_lower) (snd item)
                = false) items.
Proof.
  induction items as [|[c kws] rest IH]; intros Hnot; simpl.
  - split; [constructor | done].
  - apply not_elem_of_cons in Hnot as [Hc Hrest]. simpl in Hc.
    destruct (existsb _ kws) eqn:E.
    + split; [congruence|]. intros H. inversion H; simpl in *; congruence.
    + rewrite (IH Hrest). split.
      * intros H. by constructor.
      * intros H. by inversion H.
Qed.

End TagLawCategory.

(** X17. The category of a source is always one of the five names:
    Taxation, Data Protection, Corporate/CAC, Employment and General
    Compliance. *)
Theorem tag_law_category_is_one_of_five (source_name : string) :
  tag_law_category source_name
  ∈ ["General Compliance"; "Taxation"; "Data Protection"; "Corporate/CAC";
     "Employment"].
Proof. apply (tag_law_category_loop_range LAW_CATEGORY_MAP). Qed.

(** X18. A source whose name holds the letters tax, in any mix of upper and
    lower case, is Taxation, whatever else the name holds: the keywords of
    the later categories are not even looked at. *)
Theorem tag_law_category_tax_wins (pre mid post : string) :
  lower mid = "tax" ->
  tag_law_category (pre +:+ mid +:+ post) = "Taxation".
Proof.
  intros Hmid. unfold tag_law_category.
  apply (tag_law_category_loop_first _ _ 0 "Taxation"
           ["tax"; "nta"; "revenue"; "firs"; "nrs"]); [done| |intros; lia].
  simpl. rewrite !lower_app, Hmid.
  assert (str_contains "tax" (lower pre +:+ "tax" +:+ lower post) = true)
    as -> by (apply str_contains_spec; eauto).
  done.
Qed.

Lemma tag_law_category_tax_wins_witness :
  tag_law_category ("ndpa_data_privacy_" +:+ "TaX" +:+ "_pension.pdf")
  = "Taxation".
Proof.
  apply (tag_law_category_tax_wins "ndpa_data_privacy_" "TaX" "_pension.pdf").
  reflexivity.
Defined.

(** X19. The category is General Compliance exactly when no keyword of any
    category occurs in the lowered name. *)
Theorem tag_law_category_general_iff_no_keyword (source_name : string) :
  tag_law_category source_name = "General Compliance"
  <-> forall category keywords word,
        (category, keywords) ∈ LAW_CATEGORY_MAP ->
        word ∈ keywords ->
        str_contains word (lower source_name) = false.
Proof.
  unfold tag_law_category.
  rewrite tag_law_category_loop_none.
  - rewrite Forall_forall. split.
    + intros H category keywords word Hitem Hword.
      specialize (H _ Hitem). simpl in H.
      destruct (str_contains word (lower source_name)) eqn:E; [|done].
      assert (existsb (fun w => str_contains w (lower source_name)) keywords
              = true); [|congruence].
      apply existsb_exists. exists word. split; [|done].
      by apply list_elem_of_In.
    + intros H [category keywords] Hitem. simpl.
      destruct (existsb _ keywords) eqn:E; [|done].
      apply existsb_exists in E as (word & Hin & Hc).
      apply list_elem_of_In in Hin.
      by rewrite (H category keywords word) in Hc.
  - vm_compute. intros H. repeat (inversion H as [|? ? ? H']; subst; clear H;
                                  rename H' into H); inversion H.
Qed.

(** X20. The first category, in the order of the map, one of whose keywords
    occurs in the lowered name is the category of the source. *)
Theorem tag_law_category_first_match
    (source_name : string) (i : nat) (category : string) (keywords : list string)
    (word : string) :
  LAW_CATEGORY_MAP !! i = Some (category, keywords) ->
  word ∈ keywords ->
  str_contains word (lower source_name) = true ->
  (forall j c kws w, j < i -> LAW_CATEGORY_MAP !! j = Some (c, kws) ->
     w ∈ kws -> str_contains w (lower source_name) = false) ->
  tag_law_category source_name = category.
Proof.
  intros Hi Hword Hhit Hbefore. unfold tag_law_category.
  apply (tag_law_category_loop_first _ _ i category keywords); [done| |].
  - apply existsb_exists. exists word. split; [by apply list_elem_of_In|done].
  - intros j [c kws] Hj Hitem. simpl.
    destruct (existsb _ kws) eqn:E; [|done].
    apply existsb_exists in E as (w & Hin & Hc).
    apply list_elem_of_In in Hin.
    by rewrite (Hbefore j c kws w) in Hc.
Qed.

Lemma tag_law_category_first_match_witness :
  tag_law_category "CAMA_2020_employee_pension.pdf" = "Corporate/CAC".
Proof.
  apply (tag_law_category_first_match "CAMA_2020_employee_pension.pdf" 2
           "Corporate/CAC" ["cama"; "cac"; "corporate"; "annual return"]
           "cama").
  - reflexivity.
  - by left.
  - vm_compute. reflexivity.
  - intros j c kws w Hj Hitem Hw.
    destruct j as [|[|j]]; [| |lia]; injection Hitem as <- <-;
      repeat (apply elem_of_cons in Hw as [-> | Hw];
              [vm_compute; reflexivity|]);
      by apply elem_of_nil in Hw.
Defined.

(** ** Chunk tagging *)

Section ChunkDocuments.

Lemma tag_chunks_Forall2 (chunks out : list Document) :
  tag_chunks chunks = Ok out
  <-> Forall2 (fun c c' => tag_chunk c = Ok c') chunks out.
Proof.
  revert out. induction chunks as [|c rest IH]; intros out; simpl.
  - split.
    + intros [= <-]. constructor.
    + by inversion 1.
  - destruct (tag_chunk c) as [c'|e] eqn:Hc.
    + destruct (tag_chunks rest) as [rest'|e] eqn:Hrest.
      * split.
        -- intros [= <-]. constructor; [done|]. by apply IH.
        -- inversion 1 as [|? c'' ? rest'' Hc' Hrest']; subst.
           apply IH in Hrest'. congruence.
      * split; [done|]. inversion 1 as [|? c'' ? rest'' Hc' Hrest']; subst.
        apply IH in Hrest'. congruence.
    + split; [done|]. inversion 1; congruence.
Qed.

Lemma tag_chunks_raise (chunks : list Document) (c : Document) :
  c ∈ chunks -> is_raise (tag_chunk c) -> is_raise (tag_chunks chunks).
Proof.
  induction 1 as [c rest | c c0 rest Hin IH]; intros Hr; simpl.
  - by destruct (tag_chunk c).
  - destruct (tag_chunk c0); [|done].
    specialize (IH Hr). by destruct (tag_chunks rest).
Qed.

Lemma chunk_documents_result
    (splitter : list Document -> result (list Document))
    (docs : list Document) (w : World) :
  fst (chunk_documents splitter docs w)
  = Ok match splitter docs with
       | Ok chunks =>
           match tag_chunks chunks with
           | Ok out => out
           | Raise _ => []
           end
       | Raise _ => []
       end.
Proof.
  unfold chunk_documents, try_except, bind, lift, logger_info, logger_error,
    logger_emit, ret.
  destruct (splitter docs) as [chunks|e]; [|done].
  by destruct (tag_chunks chunks).
Qed.

End ChunkDocuments.

(** X21. When the splitter returns chunks whose source is a string or is
    missing, [chunk_documents] returns as many chunks, in the same order and
    with the same text, each with its category (that of its source, or of the
    empty name when it has none) and its table flag (the text holds a bar and
    three dashes) written over whatever was there, and every other metadata
    key as the splitter left it. *)
Theorem chunk_documents_tags_every_chunk
    (splitter : list Document -> result (list Document))
    (docs chunks : list Document) (w : World) :
  splitter docs = Ok chunks ->
  Forall (fun c => metadata c !! "source" = None
                   \/ exists s, metadata c !! "source" = Some (PStr s)) chunks ->
  exists out : list Document,
    fst (chunk_documents splitter docs w) = Ok out
    /\ length out = length chunks
    /\ forall (i : nat) (c : Document),
         chunks !! i = Some c ->
         exists c' : Document,
           out !! i = Some c'
           /\ page_content c' = page_content c
           /\ metadata c' !! "law_category"
              = Some (PStr (tag_law_category
                              match metadata c !! "source" with
                              | Some (PStr s) => s
                              | _ => ""
                              end))
           /\ metadata c' !! "contains_table"
              = Some (PBool (str_contains "|" (page_content c)
                             && str_contains "---" (page_content c)))
           /\ forall k : string,
                k <> "law_category" -> k <> "contains_table" ->
                metadata c' !! k = metadata c !! k.
Proof.
  intros Hsplit Hsrc.
  assert (Hok : exists out, tag_chunks chunks = Ok out).
  { clear Hsplit. induction Hsrc as [|c rest Hc _ [out IH]]; [by exists []|].
    simpl. rewrite IH. unfold tag_chunk.
    destruct Hc as [-> | [s ->]]; by eexists. }
  destruct Hok as [out Hout]. exists out.
  rewrite chunk_documents_result, Hsplit, Hout. split; [done|].
  apply tag_chunks_Forall2 in Hout.
  split; [symmetry; by eapply Forall2_length|].
  intros i c Hi.
  destruct (Forall2_lookup_l _ _ _ _ _ Hout Hi) as (c' & Hi' & Htag).
  exists c'. split; [done|].
  eapply Forall_lookup_1 in Hsrc; [|done]. unfold tag_chunk in Htag.
  destruct Hsrc as [Hs | [s Hs]]; rewrite Hs in Htag |- *;
    injection Htag as <-; simpl;
    (split; [done|]);
    (split; [by rewrite lookup_insert_ne, lookup_insert_eq|]);
    (split; [by rewrite lookup_insert_eq|]);
    intros k Hk1 Hk2; by rewrite !lookup_insert_ne.
Qed.

Lemma chunk_documents_tags_every_chunk_witness :
  exists out : list Document,
    fst (chunk_documents (fun ds => Ok ds) [Samples.vat_chunk]
           (Samples.world_with [])) = Ok out
    /\ length out = length [Samples.vat_chunk]
    /\ forall (i : nat) (c : Document),
         [Samples.vat_chunk] !! i = Some c ->
         exists c' : Document,
           out !! i = Some c'
           /\ page_content c' = page_content c
           /\ metadata c' !! "law_category"
              = Some (PStr (tag_law_category
                              match metadata c !! "source" with
                              | Some (PStr s) => s
                              | _ => ""
                              end))
           /\ metadata c' !! "contains_table"
              = Some (PBool (str_contains "|" (page_content c)
                             && str_contains "---" (page_content c)))
           /\ forall k : string,
                k <> "law_category" -> k <> "contains_table" ->
                metadata c' !! k = metadata c !! k.
Proof.
  apply (chunk_documents_tags_every_chunk (fun ds => Ok ds)
           [Samples.vat_chunk] [Samples.vat_chunk] (Samples.world_with [])).
  - reflexivity.
  - constructor; [|constructor].
    right. exists "finance_act.pdf". reflexivity.
Defined.

(** X22. [chunk_documents] raises nothing; when the splitter raises, or when
    one chunk has a source that is not a string, it returns no chunk at all,
    the chunks tagged before that one included. *)
Theorem chunk_documents_failure_gives_no_chunk
    (splitter : list Document -> result (list Document))
    (docs : list Document) (w : World) :
  is_raise (splitter docs)
  \/ (exists (chunks : list Document) (c : Document) (v : pyval),
        splitter docs = Ok chunks
        /\ c ∈ chunks
        /\ metadata c !! "source" = Some v
        /\ forall s, v <> PStr s) ->
  fst (chunk_documents splitter docs w) = Ok [].
Proof.
  intros Hfail. rewrite chunk_documents_result.
  destruct Hfail as [Hr | (chunks & c & v & Hsplit & Hin & Hsrc & Hv)].
  - by destruct (splitter docs).
  - rewrite Hsplit.
    assert (Hr : is_raise (tag_chunks chunks)).
    { apply (tag_chunks_raise chunks c Hin). unfold tag_chunk. rewrite Hsrc.
      destruct v; try done. by destruct (Hv s). }
    by destruct (tag_chunks chunks).
Qed.

Lemma chunk_documents_failure_gives_no_chunk_witness :
  fst (chunk_documents (fun ds => Ok ds)
         [Samples.vat_chunk; mkDocument "page 3" (<["source" := PInt 3]> ∅)]
         (Samples.world_with [])) = Ok [].
Proof.
  apply (chunk_documents_failure_gives_no_chunk (fun ds => Ok ds)
           [Samples.vat_chunk; mkDocument "page 3" (<["source" := PInt 3]> ∅)]
           (Samples.world_with [])).
  right.
  exists [Samples.vat_chunk; mkDocument "page 3" (<["source" := PInt 3]> ∅)],
    (mkDocument "page 3" (<["source" := PInt 3]> ∅)), (PInt 3).
  split; [reflexivity|]. split; [right; left|].
  split; [reflexivity | discriminate].
Defined.

(** ** Loading the pages of a PDF *)

Section LoadDocuments.

Variables (name path : string) (total : nat).

(** The loop, started at page [S k], adds after the documents it was given
    the documents of the pages with text, in the order of the pages. *)
Lemma load_pages_exact (raws : list string) :
  forall (k : nat) (docs : list Document),
    load_pages name path total (S k) (Ok <$> raws) docs
    = Ok (docs ++
            ((fun p => page_document name path total (S (fst p)) (snd p))
               <$> filter (fun p => strip (snd p) <> "")
                     (imap (fun i raw => (k + i, raw)) raws))).
Proof.
  induction raws as [|raw rest IH]; intros k docs.
  - simpl. by rewrite app_nil_r.
  - rewrite fmap_cons. cbn [load_pages]. rewrite imap_cons, filter_cons.
    cbn [snd fst]. rewrite Nat.add_0_r.
    assert (Himap : imap ((fun i raw0 => (k + i, raw0)) ∘ S) rest
                    = imap (fun i raw0 => (S k + i, raw0)) rest).
    { apply imap_ext. intros i x _. simpl. f_equal. lia. }
    rewrite Himap. destruct (decide (strip raw = "")) as [Hblank|Htext].
    + rewrite decide_False by by intros H. apply IH.
    + rewrite decide_True by done. rewrite IH, <- app_assoc. reflexivity.
Qed.

Lemma load_pages_page_raises (pages : Pdf) (e : exn) :
  Raise e ∈ pages ->
  forall (page_num : nat) (docs : list Document),
    is_raise (load_pages name path total page_num pages docs).
Proof.
  induction pages as [|page rest IH]; intros Hin page_num docs.
  - by apply elem_of_nil in Hin.
  - apply elem_of_cons in Hin as [<- | Hin]; [done|].
    cbn [load_pages]. destruct page as [raw|e']; [|done].
    case_decide; by apply IH.
Qed.

End LoadDocuments.

(** X23. When every page of the PDF can be read, [load_documents] returns,
    in the order of the pages, exactly one document for each page whose
    stripped text is not empty and none for the others: the document holds
    the stripped text, the name of the file, the page count of the file, and
    as its page the position of the page in the file counted from 1, blank
    pages included. *)
Theorem load_documents_one_document_per_page_with_text
    (name path : string) (raws : list string) (w : World) :
  fst (load_documents name path (Ok (Ok <$> raws)) w)
  = Ok ((fun p : nat * string =>
           mkDocument (strip (snd p))
             (<["source" := PStr name]>
                (<["file_type" := PStr path]>
                   (<["total_pages" := PInt (Z.of_nat (length raws))]>
                      (<["page" := PInt (Z.of_nat (S (fst p)))]> ∅)))))
          <$> filter (fun p : nat * string => strip (snd p) <> "")
                (imap (fun (i : nat) (raw : string) => (i, raw)) raws)).
Proof.
  unfold load_documents, try_except, bind, lift, logger_info, logger_error,
    logger_emit, ret.
  cbv beta iota. rewrite length_fmap.
  rewrite (load_pages_exact name path (length raws) raws 0 []). reflexivity.
Qed.

(** X24. [load_documents] raises nothing; when the file cannot be opened, or
    when the text of one page cannot be read, it returns no document at all,
    the pages read before that one included. *)
Theorem load_documents_failure_gives_no_document
    (name path : string) (fitz_open : result Pdf) (w : World) :
  is_raise fitz_open
  \/ (exists (pdf : Pdf) (e : exn), fitz_open = Ok pdf /\ Raise e ∈ pdf) ->
  fst (load_documents name path fitz_open w) = Ok [].
Proof.
  intros Hfail.
  unfold load_documents, try_except, bind, lift, logger_info, logger_error,
    logger_emit, ret.
  cbv beta iota.
  destruct Hfail as [Hr | (pdf & e & -> & Hin)].
  - by destruct fitz_open.
  - pose proof (load_pages_page_raises name path (length pdf) pdf e Hin 1 [])
      as Hr.
    by destruct (load_pages _ _ _ _ _ _).
Qed.

Lemma load_documents_failure_gives_no_document_witness :
  fst (load_documents "finance_act.pdf" "documents/finance_act.pdf"
         (Ok [Ok "Part I"; Raise (Exception "cannot read page"); Ok "Part III"])
         (Samples.world_with [])) = Ok [].
Proof.
  apply (load_documents_failure_gives_no_document "finance_act.pdf"
           "documents/finance_act.pdf"
           (Ok [Ok "Part I"; Raise (Exception "cannot read page"); Ok "Part III"])
           (Samples.world_with [])).
  right.
  exists [Ok "Part I"; Raise (Exception "cannot read page"); Ok "Part III"],
    (Exception "cannot read page").
  split; [reflexivity|]. right. left.
Defined.

(** ** The cleaning expression *)

Section Strings.

Lemma string_length_app (s t : string) :
  String.length (s +:+ t) = String.length s + String.length t.
Proof.
  induction s as [|a s IH]; [done|].
  rewrite string_app_cons. simpl. by rewrite IH.
Qed.

Lemma rev_app_spec (s acc : string) :
  String.rev_app s acc = String.rev s +:+ acc.
Proof.
  unfold String.rev. revert acc.
  induction s as [|a s IH]; intros acc; [done|]. simpl.
  rewrite (IH (String a acc)), (IH (String a "")).
  by rewrite <- string_app_assoc.
Qed.

Lemma string_rev_cons (a : ascii) (s : string) :
  String.rev (String a s) = String.rev s +:+ String a "".
Proof. unfold String.rev at 1. simpl. apply rev_app_spec. Qed.

Lemma string_rev_app (s t : string) :
  String.rev (s +:+ t) = String.rev t +:+ String.rev s.
Proof.
  induction s as [|a s IH].
  - change ("" +:+ t) with t. by rewrite string_app_nil_r.
  - rewrite string_app_cons, !string_rev_cons, IH.
    by rewrite string_app_assoc.
Qed.

Lemma string_rev_involutive (s : string) : String.rev (String.rev s) = s.
Proof.
  induction s as [|a s IH]; [done|].
  by rewrite string_rev_cons, string_rev_app, IH.
Qed.

Lemma str_all_app (P : ascii -> bool) (s t : string) :
  str_all P (s +:+ t) = str_all P s && str_all P t.
Proof.
  induction s as [|a s IH]; [done|].
  rewrite string_app_cons. simpl. by rewrite IH, andb_assoc.
Qed.

Lemma str_all_rev (P : ascii -> bool) (s : string) :
  str_all P (String.rev s) = str_all P s.
Proof.
  induction s as [|a s IH]; [done|].
  rewrite string_rev_cons, str_all_app, IH. simpl.
  by rewrite andb_true_r, andb_comm.
Qed.

End Strings.

Section Strip.

Variable two : ascii -> ascii -> bool.
Variable three : ascii -> ascii -> ascii -> bool.

Lemma lstrip_with_cons (b1 : ascii) (r1 : string) :
  lstrip_with two three (String b1 r1)
  = if is_space b1 then lstrip_with two three r1
    else
      match r1 with
      | String b2 r2 =>
          if two b1 b2 then lstrip_with two three r2
          else
            match r2 with
            | String b3 r3 =>
                if three b1 b2 b3 then lstrip_with two three r3
                else String b1 r1
            | EmptyString => String b1 r1
            end
      | EmptyString => String b1 r1
      end.
Proof. reflexivity. Qed.

(** A property of what [lstrip_with] returns follows from the property of
    the string it stops at. *)
Lemma lstrip_with_ind (P : string -> string -> Prop) :
  (forall s, space_head two three s = false -> P s s) ->
  (forall pre s out, P s out -> P (pre +:+ s) out) ->
  forall s, P s (lstrip_with two three s).
Proof.
  intros Hstop Hdrop s.
  assert (H : forall n s, String.length s <= n -> P s (lstrip_with two three s)).
  { clear s. induction n as [|n IH]; intros [|b1 r1] Hlen;
      [by apply Hstop | simpl in Hlen; lia | by apply Hstop |].
    simpl in Hlen. rewrite lstrip_with_cons.
    destruct (is_space b1) eqn:E1.
    { apply (Hdrop (String b1 "")). apply IH. lia. }
    destruct r1 as [|b2 r2].
    { apply Hstop. simpl. by rewrite E1. }
    destruct (two b1 b2) eqn:E2.
    { apply (Hdrop (String b1 (String b2 ""))). apply IH. simpl in Hlen. lia. }
    destruct r2 as [|b3 r3].
    { apply Hstop. simpl. by rewrite E1, E2. }
    destruct (three b1 b2 b3) eqn:E3.
    { apply (Hdrop (String b1 (String b2 (String b3 "")))). apply IH.
      simpl in Hlen. lia. }
    apply Hstop. simpl. by rewrite E1, E2, E3. }
  by apply (H (String.length s)).
Qed.

Lemma lstrip_with_suffix (s : string) :
  exists pre, s = pre +:+ lstrip_with two three s.
Proof.
  apply (lstrip_with_ind (fun s out => exists pre, s = pre +:+ out)).
  - intros s' _. by exists "".
  - intros pre s' out [pre' ->]. exists (pre +:+ pre').
    by rewrite string_app_assoc.
Qed.

Lemma lstrip_with_head (s : string) :
  space_head two three (lstrip_with two three s) = false.
Proof.
  by apply (lstrip_with_ind (fun _ out => space_head two three out = false)).
Qed.

Lemma lstrip_with_fixed (s : string) :
  space_head two three s = false -> lstrip_with two three s = s.
Proof.
  destruct s as [|b1 r1]; [done|]. rewrite lstrip_with_cons. simpl.
  destruct (is_space b1); [done|]. destruct r1 as [|b2 r2]; [done|].
  destruct (two b1 b2); [done|]. destruct r2 as [|b3 r3]; [done|].
  by destruct (three b1 b2 b3).
Qed.

Lemma space_head_prefix (s post : string) :
  space_head two three (s +:+ post) = false -> space_head two three s = false.
Proof.
  destruct s as [|b1 [|b2 [|b3 r3]]]; [done|..];
    rewrite ?string_app_cons; simpl.
  - by intros [-> _]%orb_false_iff.
  - intros [-> H]%orb_false_iff. simpl.
    destruct post; [done|]. by apply orb_false_iff in H as [-> _].
  - done.
Qed.


Lemma str_all_lstrip_with (P : ascii -> bool) (s : string) :
  str_all P s = true -> str_all P (lstrip_with two three s) = true.
Proof.
  apply (lstrip_with_ind
           (fun s out => str_all P s = true -> str_all P out = true)).
  - done.
  - intros pre s' out IH. rewrite str_all_app.
    intros [_ H]%andb_true_iff. by apply IH.
Qed.

End Strip.

Section StripBothEnds.

(** What [strip] returns, read backwards, does not start with whitespace. *)
Lemma strip_rev_head (s : string) :
  space_head (fun b2 b1 => is_space2 b1 b2) (fun b3 b2 b1 => is_space3 b1 b2 b3)
    (String.rev (strip s)) = false.
Proof.
  unfold strip. rewrite string_rev_involutive. apply lstrip_with_head.
Qed.

(** [strip] cuts its result out of what [lstrip] left. *)
Lemma strip_prefix_of_lstrip (s : string) :
  exists post, lstrip s = strip s +:+ post.
Proof.
  unfold strip.
  destruct (lstrip_with_suffix (fun b2 b1 => is_space2 b1 b2)
              (fun b3 b2 b1 => is_space3 b1 b2 b3) (String.rev (lstrip s)))
    as [pre Hr].
  exists (String.rev pre). fold rstrip_reversed in Hr.
  by rewrite <- string_rev_app, <- Hr, string_rev_involutive.
Qed.

Lemma strip_head (s : string) :
  space_head is_space2 is_space3 (strip s) = false.
Proof.
  destruct (strip_prefix_of_lstrip s) as [post H].
  apply (space_head_prefix _ _ _ post). rewrite <- H.
  apply lstrip_with_head.
Qed.



Lemma strip_idem (s : string) : strip (strip s) = strip s.
Proof.
  unfold strip at 1. unfold lstrip, rstrip_reversed.
  rewrite (lstrip_with_fixed _ _ (strip s)) by apply strip_head.
  rewrite (lstrip_with_fixed _ _ (String.rev (strip s))) by apply strip_rev_head.
  apply string_rev_involutive.
Qed.

(** [strip] cuts a piece out of the string. *)
Lemma strip_substring (s : string) :
  exists pre post, s = pre +:+ strip s +:+ post.
Proof.
  destruct (lstrip_with_suffix is_space2 is_space3 s) as [pre Hs].
  destruct (strip_prefix_of_lstrip s) as [post Hp].
  exists pre, post. fold lstrip in Hs. by rewrite <- Hp.
Qed.

Lemma str_all_strip (P : ascii -> bool) (s : string) :
  str_all P s = true -> str_all P (strip s) = true.
Proof.
  intros H. unfold strip. rewrite str_all_rev. apply str_all_lstrip_with.
  rewrite str_all_rev. by apply str_all_lstrip_with.
Qed.

End StripBothEnds.

Section Collapse.

(** After a carriage return the pass goes on behind the line feed that
    follows it, if one does. *)
Lemma normalize_newlines_cons (c : ascii) (s : string) :
  normalize_newlines (String c s)
  = if Ascii.eqb c CR
    then String LF
           (normalize_newlines
              match s with
              | String c' rest' => if Ascii.eqb c' LF then rest' else s
              | EmptyString => EmptyString
              end)
    else String c (normalize_newlines s).
Proof.
  destruct s as [|c' s']; simpl; destruct (Ascii.eqb c CR); try done.
  by destruct (Ascii.eqb c' LF).
Qed.

Lemma normalize_newlines_no_cr (s : string) :
  str_all not_cr (normalize_newlines s) = true.
Proof.
  assert (H : forall n s, String.length s <= n ->
                str_all not_cr (normalize_newlines s) = true).
  { clear s. induction n as [|n IH]; intros [|c s] Hlen;
      [done | simpl in Hlen; lia | done |].
    simpl in Hlen. rewrite normalize_newlines_cons.
    destruct (Ascii.eqb c CR) eqn:Ec; cbn [str_all].
    - change (not_cr LF) with true. cbn [andb]. apply IH.
      destruct s as [|c' s']; [simpl; lia|].
      destruct (Ascii.eqb c' LF); simpl in *; lia.
    - unfold not_cr at 1. rewrite Ec. cbn [negb andb]. apply IH. lia. }
  by apply (H (String.length s)).
Qed.

Lemma normalize_newlines_fixed (s : string) :
  str_all not_cr s = true -> normalize_newlines s = s.
Proof.
  induction s as [|c s IH]; [done|]. simpl.
  intros [Hc Hs]%andb_true_iff. unfold not_cr in Hc.
  destruct (Ascii.eqb c CR); [done|]. by rewrite IH.
Qed.

Lemma collapse_newlines_length (s : string) :
  forall run, String.length (collapse_newlines_from run s) <= String.length s.
Proof.
  induction s as [|c s IH]; intros run; simpl; [done|].
  destruct (Ascii.eqb c LF); [destruct (run <? 2)|]; simpl;
    pose proof (IH (S run)); pose proof (IH 0); lia.
Qed.

(** A string that [collapse_newlines_from run] leaves alone starts, if with
    a line feed, at a count below two, and its tail is left alone too. *)
Lemma collapse_newlines_fixed_cons (run : nat) (c : ascii) (s : string) :
  collapse_newlines_from run (String c s) = String c s ->
  if Ascii.eqb c LF
  then run < 2 /\ collapse_newlines_from (S run) s = s
  else collapse_newlines_from 0 s = s.
Proof.
  simpl. destruct (Ascii.eqb c LF).
  - destruct (Nat.ltb_spec run 2).
    + intros Heq. by injection Heq.
    + intros Heq. pose proof (collapse_newlines_length s (S run)) as Hlen.
      rewrite Heq in Hlen. simpl in Hlen. lia.
  - intros Heq. by injection Heq.
Qed.

Lemma collapse_newlines_fixed_mono (s : string) :
  forall run run',
    run' <= run ->
    collapse_newlines_from run s = s -> collapse_newlines_from run' s = s.
Proof.
  induction s as [|c s IH]; intros run run' Hle H; [done|].
  apply collapse_newlines_fixed_cons in H. simpl.
  destruct (Ascii.eqb c LF).
  - destruct H as [Hrun H].
    destruct (Nat.ltb_spec run' 2); [|lia].
    f_equal. apply (IH (S run)); [lia | done].
  - f_equal. exact H.
Qed.

Lemma collapse_newlines_fixed_suffix (pre s : string) :
  forall run,
    collapse_newlines_from run (pre +:+ s) = pre +:+ s ->
    collapse_newlines_from 0 s = s.
Proof.
  induction pre as [|c pre IH]; intros run H.
  - apply (collapse_newlines_fixed_mono s run); [lia | done].
  - rewrite string_app_cons in H. apply collapse_newlines_fixed_cons in H.
    destruct (Ascii.eqb c LF); [destruct H as [_ H]|]; by eapply IH.
Qed.

Lemma collapse_newlines_fixed_prefix (s post : string) :
  forall run,
    collapse_newlines_from run (s +:+ post) = s +:+ post ->
    collapse_newlines_from run s = s.
Proof.
  induction s as [|c s IH]; intros run H; [done|].
  rewrite string_app_cons in H. apply collapse_newlines_fixed_cons in H.
  simpl. destruct (Ascii.eqb c LF).
  - destruct H as [Hrun H]. destruct (Nat.ltb_spec run 2); [|lia].
    f_equal. by apply IH.
  - f_equal. by apply IH.
Qed.

Lemma collapse_newlines_idem (s : string) :
  forall run run',
    run' <= run ->
    collapse_newlines_from run' (collapse_newlines_from run s)
    = collapse_newlines_from run s.
Proof.
  induction s as [|c s IH]; intros run run' Hle; [done|]. simpl.
  destruct (Ascii.eqb c LF) eqn:Ec.
  - destruct (Nat.ltb_spec run 2).
    + simpl. rewrite Ec. destruct (Nat.ltb_spec run' 2); [|lia].
      f_equal. apply IH. lia.
    + apply IH. lia.
  - simpl. rewrite Ec. f_equal. by apply IH.
Qed.

Lemma str_all_collapse_newlines (P : ascii -> bool) (s : string) :
  forall run,
    str_all P s = true -> str_all P (collapse_newlines_from run s) = true.
Proof.
  induction s as [|c s IH]; intros run; [done|]. simpl.
  intros [Hc Hs]%andb_true_iff.
  destruct (Ascii.eqb c LF); [destruct (run <? 2)|]; simpl;
    rewrite ?Hc; simpl; by apply IH.
Qed.

Lemma is_blank_SPACE : is_blank SPACE = true.
Proof. reflexivity. Qed.

Lemma is_blank_not_LF (c : ascii) : is_blank c = true -> Ascii.eqb c LF = false.
Proof.
  unfold is_blank. intros [H|H]%orb_true_iff; apply Ascii.eqb_eq in H as ->; done.
Qed.

Lemma collapse_blanks_length (s : string) :
  forall in_run,
    String.length (collapse_blanks_from in_run s) <= String.length s.
Proof.
  induction s as [|c s IH]; intros in_run; simpl; [done|].
  destruct (is_blank c); [destruct in_run|]; simpl;
    pose proof (IH true); pose proof (IH false); lia.
Qed.

Lemma collapse_blanks_fixed_cons (in_run : bool) (c : ascii) (s : string) :
  collapse_blanks_from in_run (String c s) = String c s ->
  if is_blank c
  then in_run = false /\ collapse_blanks_from true s = s
  else collapse_blanks_from false s = s.
Proof.
  simpl. destruct (is_blank c).
  - destruct in_run.
    + intros Heq. pose proof (collapse_blanks_length s true) as Hlen.
      rewrite Heq in Hlen. simpl in Hlen. lia.
    + intros Heq. by injection Heq.
  - intros Heq. by injection Heq.
Qed.

Lemma collapse_blanks_fixed_true_false (s : string) :
  collapse_blanks_from true s = s -> collapse_blanks_from false s = s.
Proof.
  destruct s as [|c s]; [done|]. intros H.
  pose proof (collapse_blanks_fixed_cons true c s H) as H'. simpl.
  destruct (is_blank c); [by destruct H'|]. by f_equal.
Qed.

Lemma collapse_blanks_fixed_suffix (pre s : string) :
  forall in_run,
    collapse_blanks_from in_run (pre +:+ s) = pre +:+ s ->
    collapse_blanks_from false s = s.
Proof.
  induction pre as [|c pre IH]; intros in_run H.
  - destruct in_run; [by apply collapse_blanks_fixed_true_false | done].
  - rewrite string_app_cons in H. apply collapse_blanks_fixed_cons in H.
    destruct (is_blank c); [destruct H as [_ H]|]; by eapply IH.
Qed.

Lemma collapse_blanks_fixed_prefix (s post : string) :
  forall in_run,
    collapse_blanks_from in_run (s +:+ post) = s +:+ post ->
    collapse_blanks_from in_run s = s.
Proof.
  induction s as [|c s IH]; intros in_run H; [done|].
  rewrite string_app_cons in H.
  pose proof (collapse_blanks_fixed_cons in_run c _ H) as H'.
  simpl in H |- *. destruct (is_blank c).
  - destruct H' as [-> H']. injection H as Hc _. rewrite Hc.
    f_equal. by apply IH.
  - f_equal. by apply IH.
Qed.

Lemma collapse_blanks_idem (s : string) :
  forall in_run in_run' : bool,
    (in_run' = true -> in_run = true) ->
    collapse_blanks_from in_run' (collapse_blanks_from in_run s)
    = collapse_blanks_from in_run s.
Proof.
  induction s as [|c s IH]; intros in_run in_run' Himp; [done|]. simpl.
  destruct (is_blank c) eqn:Ec.
  - destruct in_run.
    + by apply IH.
    + simpl. destruct in_run'; [by specialize (Himp eq_refl)|].
      f_equal. by apply IH.
  - simpl. rewrite Ec. f_equal. by apply IH.
Qed.

Lemma str_all_collapse_blanks (P : ascii -> bool) (s : string) :
  P SPACE = true ->
  forall in_run,
    str_all P s = true -> str_all P (collapse_blanks_from in_run s) = true.
Proof.
  intros Hsp. induction s as [|c s IH]; intros in_run; [done|]. simpl.
  intros [Hc Hs]%andb_true_iff.
  destruct (is_blank c); [destruct in_run|]; simpl;
    rewrite ?Hc, ?Hsp; simpl; by apply IH.
Qed.

Lemma collapse_blanks_no_tab (s : string) :
  forall in_run, str_all not_tab (collapse_blanks_from in_run s) = true.
Proof.
  induction s as [|c s IH]; intros in_run; [done|]. simpl.
  destruct (is_blank c) eqn:Ec.
  - destruct in_run; simpl; by rewrite ?IH.
  - simpl. rewrite IH, andb_true_r. unfold not_tab.
    unfold is_blank in Ec. apply orb_false_iff in Ec as [_ ->]. done.
Qed.

(** Collapsing the blanks of a text whose line feeds are collapsed leaves
    them collapsed: a run of blanks never goes away whole. *)
Lemma collapse_newlines_after_blanks (s : string) :
  forall (run : nat) (in_run : bool),
    (in_run = true -> run = 0) ->
    collapse_newlines_from run s = s ->
    collapse_newlines_from run (collapse_blanks_from in_run s)
    = collapse_blanks_from in_run s.
Proof.
  induction s as [|c s IH]; intros run in_run Himp H; [done|].
  pose proof (collapse_newlines_fixed_cons run c s H) as H'. simpl.
  destruct (is_blank c) eqn:Ec.
  - rewrite (is_blank_not_LF c Ec) in H'.
    destruct in_run.
    + rewrite (Himp eq_refl). by apply IH.
    + simpl. change (Ascii.eqb SPACE LF) with false. cbv iota.
      f_equal. by apply IH.
  - simpl. destruct (Ascii.eqb c LF).
    + destruct H' as [Hrun H']. destruct (Nat.ltb_spec run 2); [|lia].
      f_equal. by apply IH.
    + f_equal. by apply IH.
Qed.

End Collapse.

Section CleanText.


(** The three passes leave a text that each of them leaves alone. *)
Lemma collapsed_text_fixed (s : string) :
  let y := collapse_blanks (collapse_newlines (normalize_newlines s)) in
  str_all not_cr y = true
  /\ str_all not_tab y = true
  /\ collapse_newlines_from 0 y = y
  /\ collapse_blanks_from false y = y.
Proof.
  intros y. unfold y, collapse_blanks, collapse_newlines.
  split; [|split; [|split]].
  - apply str_all_collapse_blanks; [done|].
    apply str_all_collapse_newlines, normalize_newlines_no_cr.
  - apply collapse_blanks_no_tab.
  - apply collapse_newlines_after_blanks; [done|].
    by apply collapse_newlines_idem.
  - by apply collapse_blanks_idem.
Qed.

Lemma clean_text_fixed_parts (s : string) :
  str_all not_cr (clean_text s) = true
  /\ str_all not_tab (clean_text s) = true
  /\ collapse_newlines_from 0 (clean_text s) = clean_text s
  /\ collapse_blanks_from false (clean_text s) = clean_text s.
Proof.
  unfold clean_text.
  destruct (collapsed_text_fixed s) as (Hcr & Htab & Hn & Hb).
  set (y := collapse_blanks (collapse_newlines (normalize_newlines s))) in *.
  destruct (strip_substring y) as (pre & post & Hy).
  split; [by apply str_all_strip|]. split; [by apply str_all_strip|]. split.
  - rewrite Hy in Hn at 1 2.
    apply collapse_newlines_fixed_suffix in Hn.
    by apply collapse_newlines_fixed_prefix in Hn.
  - rewrite Hy in Hb at 1 2.
    apply collapse_blanks_fixed_suffix in Hb.
    by apply collapse_blanks_fixed_prefix in Hb.
Qed.

Lemma clean_text_idem (s : string) : clean_text (clean_text s) = clean_text s.
Proof.
  destruct (clean_text_fixed_parts s) as (Hcr & _ & Hn & Hb).
  unfold clean_text at 1.
  rewrite (normalize_newlines_fixed _ Hcr).
  unfold collapse_newlines, collapse_blanks. rewrite Hn, Hb.
  unfold clean_text. apply strip_idem.
Qed.

End CleanText.


(** X27. Cleaning is idempotent: cleaning a cleaned text changes nothing. *)
Theorem clean_text_idempotent (s : string) :
  clean_text (clean_text s) = clean_text s.
Proof. apply clean_text_idem. Qed.

(** X28. The loop of [clean_documents], on whatever list it is started with,
    can only come to its end with that list unchanged, which it does exactly
    when every page from its index on cleans to the empty text; one page with
    text is enough for it never to finish, since the cleaned copy it appends
    is a page with text it has yet to reach. *)
Theorem clean_loop_finishes_only_unchanged (docs : list Document) (i : nat) :
  (forall fuel out, clean_loop fuel i docs = Some out -> out = docs)
  /\ ((exists fuel, clean_loop fuel i docs <> None)
      <-> forall j d, i <= j -> docs !! j = Some d ->
            clean_text (page_content d) = "").
Proof.
  assert (Hdiverge : forall fuel docs i j d,
             i <= j -> docs !! j = Some d ->
             clean_text (page_content d) <> "" ->
             clean_loop fuel i docs = None).
  { clear. induction fuel as [|fuel IH]; intros docs i j d Hij Hj Hd; [done|].
    simpl. destruct (docs !! i) as [doc|] eqn:Hi.
    - case_decide as Hblank.
      + apply (IH docs (S i) j d); [|done..].
        destruct (decide (i = j)) as [->|]; [|lia]. congruence.
      + apply (IH _ (S i) (length docs)
                 (mkDocument (clean_text (page_content doc)) (metadata doc))).
        * apply lookup_lt_Some in Hi. lia.
        * by rewrite lookup_app_r, Nat.sub_diag by lia.
        * simpl. by rewrite clean_text_idem.
    - apply lookup_ge_None in Hi. apply lookup_lt_Some in Hj. lia. }
  assert (Hblank : forall n docs i,
             length docs - i <= n ->
             (forall j d, i <= j -> docs !! j = Some d ->
                clean_text (page_content d) = "") ->
             clean_loop (S n) i docs = Some docs).
  { clear. induction n as [|n IH]; intros docs i Hlen Hall.
    - simpl. destruct (docs !! i) eqn:Hi; [|done].
      apply lookup_lt_Some in Hi. lia.
    - cbn [clean_loop]. destruct (docs !! i) as [doc|] eqn:Hi; [|done].
      rewrite decide_True by by apply (Hall i doc).
      apply IH; [lia|]. intros j d Hj. apply Hall. lia. }
  assert (Hfin : (exists fuel, clean_loop fuel i docs <> None)
                 -> forall j d, i <= j -> docs !! j = Some d ->
                      clean_text (page_content d) = "").
  { intros [fuel Hfuel] j d Hij Hj.
    destruct (decide (clean_text (page_content d) = "")) as [|Hne]; [done|].
    by rewrite (Hdiverge fuel docs i j d) in Hfuel. }
  split.
  - intros fuel out Hout.
    assert (Hne : clean_loop fuel i docs <> None) by congruence.
    assert (Hall := Hfin (ex_intro _ fuel Hne)). clear Hne.
    clear Hfin Hdiverge.
    revert i Hout Hall. induction fuel as [|fuel IH]; intros i Hout Hall;
      [done|].
    simpl in Hout. destruct (docs !! i) as [doc|] eqn:Hi; [|congruence].
    rewrite decide_True in Hout by by apply (Hall i doc).
    apply (IH (S i)); [done|]. intros j d Hj. apply Hall. lia.
  - split; [exact Hfin|]. intros Hall.
    exists (S (length docs - i)). by rewrite Hblank.
Qed.
